(** * type-trance: the frame-sequence pipeline of [src/script.js]

    A shallow embedding of the text layout ([wrapText], [optimizeLayout]),
    of the per-frame visible-text computation of [generateTypingVideo]
    and of the way the encoder's outcome is handled, with the properties
    of the specification stated and settled against it.

    Conventions of the embedding.
    - A JavaScript number is an IEEE-754 binary64 value: [number] is
      the standard library's [spec_float] at precision 53, and the
      arithmetic of the script ([*], [/], [<], [<=]) is [SFmul], [SFdiv],
      [SFltb], [SFleb] there.
    - A number that the script only ever uses as a counter (a frame
      index, a frame count, a font size in pixels, a string length) is
      carried as a [Z]; where it meets floating-point arithmetic it is
      injected with [of_Z].  Counters are below 2^53, where every
      integer is a binary64 value and counting by one is exact.
    - A string is a [string] of the standard library; [text.length] is
      its number of characters.
    - The canvas is outside the embedding: of the 2D context only the
      font size is kept, and the width of a string in that font is a
      parameter [measureText].  Drawing, the progress bars and the
      console are left out; of the file system only the entries of the
      temporary frame directory are kept. *)

From Stdlib Require Import ZArith QArith Qround Qpower List String Ascii Bool.
From Stdlib Require Import Lia Lqa.
From Stdlib Require Import Floats.SpecFloat.
From Stdlib Require Import DecimalString DecimalN.
From Equations Require Import Equations.
Import ListNotations.

Open Scope string_scope.
Open Scope list_scope.
Open Scope Z_scope.

(* ===================================================================== *)
(** ** JavaScript numbers *)
(* ===================================================================== *)

Module Num.

Definition prec : Z := 53.
Definition emax : Z := 1024.

Definition number := spec_float.

(** The number denoted by an integer literal or held by a counter. *)
Definition of_Z (n : Z) : number := binary_normalize prec emax n 0 false.

Definition mul : number -> number -> number := SFmul prec emax.
Definition div : number -> number -> number := SFdiv prec emax.
Definition ltb : number -> number -> bool := SFltb.
Definition leb : number -> number -> bool := SFleb.

(** The literal [1.2]: the binary64 value nearest to 12/10. *)
Definition lit_1_2 : number := S754_finite false 5404319552844595 (-52).

(** What [Math.floor] can return: an integer-valued number, carried
    as the integer, or one of the three values it passes through. *)
Inductive integral : Type :=
| Int (n : Z)
| NaN
| Inf (negative : bool).

Definition Math_floor (x : number) : integral :=
  match x with
  | S754_zero _ => Int 0
  | S754_nan => NaN
  | S754_infinity s => Inf s
  | S754_finite s m e =>
      let v := if s then Z.neg m else Z.pos m in
      Int (if 0 <=? e then Z.shiftl v e else Z.shiftr v (- e))
  end.

(** [n <= v] for a counter [n] and a floored value [v]. *)
Definition le_integral (n : Z) (v : integral) : bool :=
  match v with
  | Int m => n <=? m
  | NaN => false
  | Inf negative => negb negative
  end.

(** [v - n]. *)
Definition sub_integral (v : integral) (n : Z) : integral :=
  match v with
  | Int m => Int (m - n)
  | NaN => NaN
  | Inf s => Inf s
  end.

End Num.

Import Num.

(** *** Numbers read as rationals

    The definitions below are not part of the program: they say what
    the floating-point operations compute, and are what the proofs
    about rounding are stated with. *)

Definition pow2 (e : Z) : Q := (2 ^ e)%Q.

(** The rational a number stands for (0 for what is not finite). *)
Definition F2Q (f : number) : Q :=
  match f with
  | S754_finite s m e =>
      (inject_Z (if s then Z.neg m else Z.pos m) * pow2 e)%Q
  | _ => 0%Q
  end.

(** Rounding to the nearest integer, ties to the even one. *)
Definition rne (u : Q) : Z :=
  let f := Qfloor u in
  match (u - inject_Z f ?= 1 # 2)%Q with
  | Lt => f
  | Eq => if Z.even f then f else f + 1
  | Gt => f + 1
  end.

(** What a [location] says of the part [d] cut off below the last
    digit kept. *)
Definition classify (l : location) (d : Q) : Prop :=
  match l with
  | loc_Exact => (d == 0)%Q
  | loc_Inexact Lt => (0 < d /\ d < 1 # 2)%Q
  | loc_Inexact Eq => (d == 1 # 2)%Q
  | loc_Inexact Gt => (1 # 2 < d /\ d < 1)%Q
  end.

(** [m * 2^e] is [x] rounded to nearest (ties to even) among the
    numbers with a 53-bit mantissa, [x] lying in [[2^(g-1), 2^g)]. *)
Definition rounds_to (g : Z) (x : Q) (m e : Z) : Prop :=
  (pow2 (g - 1) <= x /\ x < pow2 g)%Q /\
  2 ^ 52 <= m < 2 ^ 53 /\
  (e = g - 53 \/ e = g - 52) /\
  (inject_Z m * pow2 e == inject_Z (rne (x / pow2 (g - 53))) * pow2 (g - 53))%Q.

(** [f] is the positive finite number that [x] rounds to, [x] lying
    in [[2^(g-1), 2^g)] for some [g] between [lo] and [hi]. *)
Definition rounded (f : number) (x : Q) (lo hi : Z) : Prop :=
  exists g m e, f = S754_finite false m e /\
                rounds_to g x (Zpos m) e /\ lo <= g <= hi.

(** A rank that orders the numbers other than NaN as [<=] does. *)
Definition rank (x : number) : Z * Z * Z :=
  match x with
  | S754_infinity true => (-2, 0, 0)
  | S754_finite true m e => (-1, - e, Z.neg m)
  | S754_zero _ => (0, 0, 0)
  | S754_finite false m e => (1, e, Z.pos m)
  | S754_infinity false => (2, 0, 0)
  | S754_nan => (3, 0, 0)
  end.

Definition lex_le (a b : Z * Z * Z) : Prop :=
  let '(a1, a2, a3) := a in
  let '(b1, b2, b3) := b in
  a1 < b1 \/ (a1 = b1 /\ (a2 < b2 \/ (a2 = b2 /\ a3 <= b3))).

(* ===================================================================== *)
(** ** JavaScript strings *)
(* ===================================================================== *)

Module Str.

Definition space : ascii := " "%char.

(** [s.length] *)
Definition len (s : string) : Z := Z.of_nat (String.length s).

(** [s.split(' ')]: the pieces between single space characters; never
    an empty array ([''.split(' ')] is [['']]). *)
Fixpoint split (s : string) : list string :=
  match s with
  | EmptyString => [EmptyString]
  | String c rest =>
      if Ascii.eqb c space then EmptyString :: split rest
      else match split rest with
           | w :: ws => String c w :: ws
           | [] => [String c EmptyString]
           end
  end.

(** [lines.join(' ')] *)
Definition join (ls : list string) : string := String.concat " " ls.

(** The first [n] characters of [s]. *)
Fixpoint take (n : nat) (s : string) : string :=
  match n, s with
  | S k, String c rest => String c (take k rest)
  | _, _ => EmptyString
  end.

(** [s.slice(0, stop)]: [stop] is first made an integer (NaN is 0), a
    negative one counts from the end of [s], and the result is clamped
    to [s]. *)
Definition slice0 (s : string) (stop : integral) : string :=
  let size := len s in
  let relEnd :=
    match stop with
    | Int n => n
    | NaN => 0
    | Inf negative => if negative then - size else size
    end in
  let final := if relEnd <? 0 then Z.max (size + relEnd) 0
               else Z.min relEnd size in
  take (Z.to_nat final) s.

(** [p] is an initial substring of [s]. *)
Definition is_prefix (p s : string) : Prop := exists r, s = (p ++ r)%string.

End Str.

(* ===================================================================== *)
(** ** Text layout: [wrapText] and [optimizeLayout] *)
(* ===================================================================== *)

(** The part of the canvas 2D context the layout code touches: the
    pixel size of its font, set by [ctx.font = `${fontSize}px Arial`]. *)
Record Context : Type := { font : Z }.

Record LayoutSpec : Type := {
  fontSize : Z;
  lines : list string;
  lineHeight : number
}.

Section Layout.

(** [ctx.measureText(s).width] comes from the canvas library: the
    width of [s] in the font currently set on the context. *)
Variable measureText : Context -> string -> number.

(** The [for] loop of [wrapText] over [words[1..]]. *)
Fixpoint wrapText_loop (ctx : Context) (maxWidth : number)
    (words : list string) (lines : list string) (currentLine : string)
    : list string :=
  match words with
  | [] => lines ++ [currentLine]
  | word :: rest =>
      let width := measureText ctx (currentLine ++ " " ++ word)%string in
      if ltb width maxWidth
      then wrapText_loop ctx maxWidth rest lines
             (currentLine ++ " " ++ word)%string
      else wrapText_loop ctx maxWidth rest (lines ++ [currentLine]) word
  end.

Definition wrapText (ctx : Context) (text : string) (maxWidth : number)
    : list string :=
  match Str.split text with
  | first :: rest => wrapText_loop ctx maxWidth rest [] first
  | [] => [] (* not reached: [split] never returns an empty array *)
  end.

(** One turn of the [while] loop of [optimizeLayout] at [fontSize]: the
    font is set on the context, the text wrapped, the line height
    computed. *)
Definition layoutAt (text : string) (maxWidth : number) (fontSize : Z)
    : LayoutSpec :=
  let ctx := {| font := fontSize |} in
  let lines := wrapText ctx text maxWidth in
  {| fontSize := fontSize; lines := lines;
     lineHeight := mul (of_Z fontSize) lit_1_2 |}.

Definition totalHeight (l : LayoutSpec) : number :=
  mul (of_Z (Z.of_nat (List.length (lines l)))) (lineHeight l).

(** The test [totalHeight <= maxHeight] of the loop at [fontSize]. *)
Definition fits (text : string) (maxWidth maxHeight : number)
    (fontSize : Z) : bool :=
  leb (totalHeight (layoutAt text maxWidth fontSize)) maxHeight.

(** The [while (fontSize >= minFontSize)] loop: [Some] is the early
    [return], [None] is falling out of the loop. *)
Equations? optimizeLayout_loop (text : string) (maxWidth maxHeight : number)
    (minFontSize fontSize : Z) : option LayoutSpec
    by wf (Z.to_nat (fontSize - minFontSize + 1)) lt :=
  optimizeLayout_loop text maxWidth maxHeight minFontSize fontSize
    with Z_le_dec minFontSize fontSize := {
    | left _ =>
        if fits text maxWidth maxHeight fontSize
        then Some (layoutAt text maxWidth fontSize)
        else optimizeLayout_loop text maxWidth maxHeight minFontSize
               (fontSize - 1)
    | right _ => None }.
Proof. lia. Qed.

(** [optimizeLayout(ctx, text, maxWidth, maxHeight, minFontSize,
    maxFontSize)]: the context comes back with the font last set. *)
Definition optimizeLayout (ctx : Context) (text : string)
    (maxWidth maxHeight : number) (minFontSize maxFontSize : Z)
    : Context * LayoutSpec :=
  match optimizeLayout_loop text maxWidth maxHeight minFontSize maxFontSize with
  | Some l => ({| font := fontSize l |}, l)
  | None => ({| font := minFontSize |}, layoutAt text maxWidth minFontSize)
  end.

(** A line is acceptable when it is one of the words of the text or
    was measured narrower than [maxWidth]. *)
Definition line_ok (ctx : Context) (maxWidth : number)
    (words : list string) (line : string) : Prop :=
  In line words \/ ltb (measureText ctx line) maxWidth = true.

End Layout.

(** A measurer for worked examples, every character as wide as the
    font size (the real widths come from the canvas library). *)
Definition monospace (ctx : Context) (s : string) : number :=
  of_Z (font ctx * Str.len s).

(* ===================================================================== *)
(** ** Visible text of a frame (the body of the frame loop) *)
(* ===================================================================== *)

(** [totalFrames] and [bufferFrames] are the products of the video
    length and of the buffer time by the frame rate; the frame loop
    runs [i] from 0 up to [totalFrames]. *)

(** The [for (let line of lines)] loop with its [break]. *)
Fixpoint typeLines (lines : list string) (visibleChars : integral)
    (charCount : Z) (displayLines : list string) : list string :=
  match lines with
  | [] => displayLines
  | line :: rest =>
      if le_integral (charCount + Str.len line) visibleChars
      then typeLines rest visibleChars (charCount + Str.len line)
             (displayLines ++ [line])
      else displayLines ++ [Str.slice0 line (sub_integral visibleChars charCount)]
  end.

Definition typingFrames (totalFrames bufferFrames : Z) : Z :=
  totalFrames - 2 * bufferFrames.

Definition progress (i totalFrames bufferFrames : Z) : number :=
  div (of_Z (i - bufferFrames)) (of_Z (typingFrames totalFrames bufferFrames)).

Definition visibleChars (i totalFrames bufferFrames : Z) (text : string)
    : integral :=
  let totalChars := Str.len text in
  Math_floor (mul (of_Z totalChars) (progress i totalFrames bufferFrames)).

(** The branch of the frame loop taken at frame [i]. *)
Inductive Regime : Type := LeadingHold | Typing | TrailingHold.

Definition regime (i totalFrames bufferFrames : Z) : Regime :=
  if (bufferFrames <=? i) && (i <? totalFrames - bufferFrames) then Typing
  else if totalFrames - bufferFrames <=? i then TrailingHold
  else LeadingHold.

(** [displayLines] as it stands after the [if]/[else if] of frame [i]. *)
Definition displayLines (i totalFrames bufferFrames : Z) (text : string)
    (lines : list string) : list string :=
  match regime i totalFrames bufferFrames with
  | Typing =>
      typeLines lines (visibleChars i totalFrames bufferFrames text) 0 []
  | TrailingHold => lines
  | LeadingHold => []
  end.

(** The number of characters of a sequence of lines. *)
Definition charCount (ls : list string) : Z :=
  fold_right (fun line n => Str.len line + n) 0 ls.

(** The shape of what a frame shows: whole lines, then at most one
    line cut short. *)
Inductive PrefixOfLines : list string -> list string -> Prop :=
| pol_nil (ls : list string) : PrefixOfLines [] ls
| pol_cut (p line : string) (rest : list string) :
    Str.is_prefix p line -> PrefixOfLines [p] (line :: rest)
| pol_whole (line : string) (d rest : list string) :
    PrefixOfLines d rest -> PrefixOfLines (line :: d) (line :: rest).

(* ===================================================================== *)
(** ** The encoder boundary and the temporary frame files *)
(* ===================================================================== *)

(** The directory [os.tmpdir()/temp_frames]: [None] when it does not
    exist, otherwise the names of its entries. *)
Definition TempDir : Type := option (list string).

(** [i.toString().padStart(5, '0')] for a frame index. *)
Definition padStart5 (s : string) : string :=
  (String.concat "" (repeat "0" (5 - String.length s)) ++ s)%string.

Definition frameFileName (i : Z) : string :=
  ("frame_" ++ padStart5 (NilZero.string_of_uint (N.to_uint (Z.to_N i)))
   ++ ".png")%string.

(** [if (!fs.existsSync(tempDir)) fs.mkdirSync(tempDir)] *)
Definition ensureTempDir (d : TempDir) : list string :=
  match d with
  | Some entries => entries
  | None => []
  end.

(** [fs.writeFileSync(name, ...)]: creates the entry or overwrites it. *)
Definition writeFileSync (name : string) (entries : list string)
    : list string :=
  if in_dec string_dec name entries then entries else entries ++ [name].

(** The file writes of the frame loop, frames [i], [i+1], ... ([n] of
    them). *)
Fixpoint writeFrames (n : nat) (i : Z) (entries : list string)
    : list string :=
  match n with
  | O => entries
  | S k => writeFrames k (i + 1) (writeFileSync (frameFileName i) entries)
  end.

(** How the ffmpeg command finishes: its ['end'] or its ['error']
    event. *)
Inductive EncoderOutcome : Type :=
| EncoderEnd
| EncoderError (err : string).

(** How the promise returned by [generateTypingVideo] settles. *)
Inductive Settled : Type :=
| Resolved
| Rejected (err : string).

(** The ['end'] handler: unlink every entry, remove the directory,
    resolve. *)
Definition onEnd (entries : list string) : TempDir * Settled :=
  let remaining :=
    fold_left (fun d file => remove string_dec file d) entries entries in
  (match remaining with
   | [] => None                 (* [fs.rmdirSync(tempDir)] *)
   | _ :: _ => Some remaining   (* not reached: rmdir would throw *)
   end, Resolved).

(** The ['error'] handler: log and reject. *)
Definition onError (err : string) (entries : list string)
    : TempDir * Settled :=
  (Some entries, Rejected err).

(** The effect of [generateTypingVideo] on the temporary directory and
    the way its promise settles, for a run of [totalFrames] frames. *)
Definition generateTypingVideo (totalFrames : Z) (outcome : EncoderOutcome)
    (d : TempDir) : TempDir * Settled :=
  let entries := writeFrames (Z.to_nat totalFrames) 0 (ensureTempDir d) in
  match outcome with
  | EncoderEnd => onEnd entries
  | EncoderError err => onError err entries
  end.

(* ===================================================================== *)
(** ** Inputs of the worked examples *)
(* ===================================================================== *)

(** A text of 45 characters. *)
Definition pangram : string := "The quick brown fox jumps over the lazy dogs.".

(** A word that is wider than the default text box at the largest font. *)
Definition longWord : string := "Supercalifragilisticexpialidocious".

(** The text box of the default settings: 1080x1920 with margins of
    one tenth on every side. *)
Definition boxWidth : number := of_Z 864.
Definition boxHeight : number := of_Z 1536.

(* ===================================================================== *)
(** ** Settings and the drawing of a frame *)
(* ===================================================================== *)

(** Sum and difference of numbers, [+] and [-] of the script. *)
Definition number_add : number -> number -> number := SFadd prec emax.
Definition number_sub : number -> number -> number := SFsub prec emax.

Module Render.

Record Margins : Type := {
  top : number;
  bottom : number;
  left : number;
  right : number
}.

(** The options of [generateTypingVideo] that the layout and the frame
    loop read, [width] and [height] being the two numbers of
    [resolution] and [backgroundImage] telling whether an image was
    given (it is then drawn from its cached canvas). *)
Record Settings : Type := {
  text : string;
  width : number;
  height : number;
  textColor : string;
  backgroundColor : string;
  backgroundImage : bool;
  margins : Margins;
  flowFromTop : bool;
  highlightText : bool;
  highlightOpacity : number
}.

(** A value of [ctx.fillStyle]: a colour given by the settings, or the
    [rgba(0, 0, 0, highlightOpacity)] of the highlight. *)
Inductive FillStyle : Type :=
| Named (color : string)
| BlackAlpha (opacity : number).

(** The drawing calls made on the canvas context. *)
Inductive DrawOp : Type :=
| DrawImage (x y : number)
| FillRect (style : FillStyle) (x y w h : number)
| FillText (style : FillStyle) (font : Z) (line : string) (x y : number).

Definition maxWidth (s : Settings) : number :=
  mul (width s)
      (number_sub (number_sub (of_Z 1) (left (margins s))) (right (margins s))).

Definition maxHeight (s : Settings) : number :=
  mul (height s)
      (number_sub (number_sub (of_Z 1) (top (margins s))) (bottom (margins s))).

(** The first statement of the frame loop: the cached image, or a
    flat fill of the whole canvas. *)
Definition background (s : Settings) : DrawOp :=
  if backgroundImage s then DrawImage (of_Z 0) (of_Z 0)
  else FillRect (Named (backgroundColor s)) (of_Z 0) (of_Z 0)
         (width s) (height s).

Definition startY (s : Settings) (layout : LayoutSpec)
    (displayLines : list string) : number :=
  if flowFromTop s then mul (height s) (top (margins s))
  else div (number_sub (height s)
              (mul (of_Z (Z.of_nat (List.length displayLines)))
                   (lineHeight layout)))
           (of_Z 2).

Section Drawing.

Variable measureText : Context -> string -> number.

(** [displayLines.forEach((line, index) => ...)], from [index] on. *)
Fixpoint drawLines (s : Settings) (layout : LayoutSpec) (startY : number)
    (index : Z) (displayLines : list string) : list DrawOp :=
  match displayLines with
  | [] => []
  | line :: rest =>
      let x := mul (width s) (left (margins s)) in
      let y := number_add startY (mul (of_Z index) (lineHeight layout)) in
      let padding := of_Z 5 in
      (if highlightText s
       then
         let lineWidth := measureText {| font := fontSize layout |} line in
         [FillRect (BlackAlpha (highlightOpacity s))
            (number_sub x padding) (number_sub y padding)
            (number_add lineWidth (mul (of_Z 2) padding))
            (lineHeight layout)]
       else [])
      ++ FillText (Named (textColor s)) (fontSize layout) line x y
      :: drawLines s layout startY (index + 1) rest
  end.

(** The layout computed once before the frame loop. *)
Definition layoutOf (ctx : Context) (s : Settings) : LayoutSpec :=
  snd (optimizeLayout measureText ctx (text s) (maxWidth s) (maxHeight s)
         12 100).

(** The drawing calls of frame [i], in order. *)
Definition renderFrame (s : Settings) (layout : LayoutSpec)
    (i totalFrames bufferFrames : Z) : list DrawOp :=
  let shown := displayLines i totalFrames bufferFrames (text s) (lines layout) in
  background s
  :: drawLines s layout (startY s layout shown) 0 shown.

End Drawing.

(** The lines of text that a sequence of drawing calls writes. *)
Definition drawnTexts (ops : list DrawOp) : list string :=
  flat_map (fun op => match op with
                      | FillText _ _ line _ _ => [line]
                      | _ => []
                      end) ops.

(** The [fillText] calls among a sequence of drawing calls. *)
Definition textOps (ops : list DrawOp) : list DrawOp :=
  filter (fun op => match op with
                    | FillText _ _ _ _ _ => true
                    | _ => false
                    end) ops.

End Render.

(** A string holds no space. *)
Definition no_space (s : string) : Prop :=
  ~ In Str.space (list_ascii_of_string s).

(** [l1] and [l2] follow each other in [ls]. *)
Definition adjacent (l1 l2 : string) (ls : list string) : Prop :=
  exists before after, ls = before ++ l1 :: l2 :: after.

(** The indices [i], [i + 1], ... ([n] of them) that a loop counter
    started at [i] goes through. *)
Fixpoint indicesFrom (n : nat) (i : Z) : list Z :=
  match n with
  | O => []
  | S k => i :: indicesFrom k (i + 1)
  end.

(** Every element of [ls] is related to the one that follows it. *)
Fixpoint chain (R : string -> string -> Prop) (ls : list string) : Prop :=
  match ls with
  | l1 :: ((l2 :: _) as rest) => R l1 l2 /\ chain R rest
  | _ => True
  end.

(** The test that closed a line: with the first word of the next line
    added, it was not narrower than [maxWidth]. *)
Definition did_not_fit (measureText : Context -> string -> number)
    (ctx : Context) (maxWidth : number)
    (l1 l2 : string) : Prop :=
  ltb (measureText ctx (l1 ++ " " ++ hd "" (Str.split l2))%string) maxWidth
  = false.

(** The literals [0.1] and [0.7]: the binary64 values nearest to 1/10
    and to 7/10. *)
Definition lit_0_1 : number := S754_finite false 7205759403792794 (-56).
Definition lit_0_7 : number := S754_finite false 6305039478318694 (-53).

(** The [SETTINGS] of the script, its resolution read as two numbers. *)
Definition SETTINGS : Render.Settings :=
  {| Render.text := "default text for testing...";
     Render.width := of_Z 1080;
     Render.height := of_Z 1920;
     Render.textColor := "white";
     Render.backgroundColor := "black";
     Render.backgroundImage := false;
     Render.margins :=
       {| Render.top := lit_0_1; Render.bottom := lit_0_1;
          Render.left := lit_0_1; Render.right := lit_0_1 |};
     Render.flowFromTop := true;
     Render.highlightText := true;
     Render.highlightOpacity := lit_0_7 |}.
(* ===================================================================== *)
(** * Properties *)
(* ===================================================================== *)

(** ** Strings: [split], [join], [take] *)

Lemma split_not_nil (s : string) : Str.split s <> [].
Proof.
  induction s as [|c rest IH]; simpl; [discriminate|].
  destruct (Ascii.eqb c Str.space); [discriminate|].
  destruct (Str.split rest); discriminate.
Qed.

Lemma join_cons_cons (a b : string) (r : list string) :
  Str.join (a :: b :: r) = (a ++ " " ++ Str.join (b :: r))%string.
Proof. reflexivity. Qed.

Lemma string_app_assoc (a b c : string) :
  ((a ++ b) ++ c = a ++ (b ++ c))%string.
Proof. induction a as [|x a IH]; simpl; [reflexivity | now rewrite IH]. Qed.

(** [split] and [join] are inverse on the side the script relies on. *)
Lemma join_split (s : string) : Str.join (Str.split s) = s.
Proof.
  induction s as [|c rest IH]; [reflexivity|].
  simpl. destruct (Ascii.eqb c Str.space) eqn:Hc.
  - apply Ascii.eqb_eq in Hc. subst c.
    pose proof (split_not_nil rest) as Hne.
    destruct (Str.split rest) as [|w ws]; [contradiction|].
    rewrite join_cons_cons, IH. reflexivity.
  - pose proof (split_not_nil rest) as Hne.
    destruct (Str.split rest) as [|w ws]; [contradiction|].
    destruct ws as [|w' ws].
    + unfold Str.join in *. simpl in *. now rewrite IH.
    + rewrite join_cons_cons. rewrite join_cons_cons in IH.
      change ((String c w ++ " " ++ Str.join (w' :: ws))%string)
        with (String c (w ++ " " ++ Str.join (w' :: ws))%string).
      now rewrite IH.
Qed.

(** Gluing two neighbouring pieces with a space does not change what
    the pieces join to. *)
Lemma join_glue (l : list string) (a b : string) (r : list string) :
  Str.join (l ++ (a ++ " " ++ b)%string :: r) = Str.join (l ++ a :: b :: r).
Proof.
  induction l as [|x l IH].
  - simpl app. rewrite join_cons_cons.
    destruct r as [|c r].
    + reflexivity.
    + rewrite !join_cons_cons, !string_app_assoc. reflexivity.
  - destruct l as [|y l].
    + simpl app in *. rewrite !join_cons_cons. now rewrite IH.
    + simpl app in *. rewrite !(join_cons_cons x). now rewrite IH.
Qed.

Lemma take_is_prefix (n : nat) (s : string) : Str.is_prefix (Str.take n s) s.
Proof.
  revert s. induction n as [|n IH]; intros s.
  - exists s. destruct s; reflexivity.
  - destruct s as [|c rest]; [exists EmptyString; reflexivity|].
    destruct (IH rest) as [r Hr]. exists r. simpl. now rewrite <- Hr.
Qed.

Lemma take_length (n : nat) (s : string) :
  (n <= String.length s)%nat -> String.length (Str.take n s) = n.
Proof.
  revert s. induction n as [|n IH]; intros s Hn.
  - destruct s; reflexivity.
  - destruct s as [|c rest]; simpl in *; [lia|]. rewrite IH; lia.
Qed.

Lemma slice0_is_prefix (s : string) (stop : integral) :
  Str.is_prefix (Str.slice0 s stop) s.
Proof. apply take_is_prefix. Qed.

Lemma slice0_Int (s : string) (n : Z) :
  0 <= n <= Str.len s ->
  Str.slice0 s (Int n) = Str.take (Z.to_nat n) s.
Proof.
  intros Hn. unfold Str.slice0.
  destruct (n <? 0) eqn:Hneg; [apply Z.ltb_lt in Hneg; lia|].
  now rewrite Z.min_l by lia.
Qed.

Lemma len_nonneg (s : string) : 0 <= Str.len s.
Proof. unfold Str.len. lia. Qed.

Lemma len_zero (s : string) : Str.len s = 0 -> s = EmptyString.
Proof. destruct s; unfold Str.len; simpl; [reflexivity | lia]. Qed.

(** ** [wrapText] *)

Section LayoutFacts.

Variable measureText : Context -> string -> number.

Lemma wrapText_loop_join ctx maxWidth words lines currentLine :
  Str.join (wrapText_loop measureText ctx maxWidth words lines currentLine)
  = Str.join (lines ++ currentLine :: words).
Proof.
  revert lines currentLine.
  induction words as [|word rest IH]; intros lines currentLine; simpl.
  - reflexivity.
  - destruct (ltb _ maxWidth).
    + rewrite IH. apply join_glue.
    + rewrite IH, <- app_assoc. reflexivity.
Qed.

Lemma wrapText_loop_not_nil ctx maxWidth words lines currentLine :
  wrapText_loop measureText ctx maxWidth words lines currentLine <> [].
Proof.
  revert lines currentLine.
  induction words as [|word rest IH]; intros lines currentLine; simpl.
  - destruct lines; discriminate.
  - destruct (ltb _ maxWidth); apply IH.
Qed.

Lemma wrapText_not_nil ctx text maxWidth :
  wrapText measureText ctx text maxWidth <> [].
Proof.
  unfold wrapText. pose proof (split_not_nil text).
  destruct (Str.split text); [contradiction|].
  apply wrapText_loop_not_nil.
Qed.

Lemma wrapText_loop_lines ctx maxWidth all words lines currentLine :
  (forall w, In w words -> In w all) ->
  (forall l, In l lines -> line_ok measureText ctx maxWidth all l) ->
  line_ok measureText ctx maxWidth all currentLine ->
  forall l,
    In l (wrapText_loop measureText ctx maxWidth words lines currentLine) ->
    line_ok measureText ctx maxWidth all l.
Proof.
  revert lines currentLine.
  induction words as [|word rest IH]; intros lines currentLine Hw Hl Hc l; simpl.
  - rewrite in_app_iff. simpl. intros [H|[H|[]]]; [auto | now subst].
  - destruct (ltb _ maxWidth) eqn:Hlt.
    + apply IH; auto.
      * intros w Hin. apply Hw. now right.
      * now right.
    + apply IH; auto.
      * intros w Hin. apply Hw. now right.
      * intros l0. rewrite in_app_iff. simpl. intros [H|[H|[]]]; [auto | now subst].
      * left. apply Hw. now left.
Qed.

End LayoutFacts.

(** ** The order of numbers *)

Lemma leb_rank (x y : number) :
  leb x y = true <-> (x <> S754_nan /\ y <> S754_nan /\ lex_le (rank x) (rank y)).
Proof.
  unfold leb, SFleb, SFcompare, lex_le.
  destruct x as [[|]|[|]| |[|] m1 e1]; destruct y as [[|]|[|]| |[|] m2 e2];
    simpl;
    try (split; [intros _; repeat split; try discriminate; lia
                | reflexivity]);
    try (split; [discriminate | intros (H1 & H2 & H3); try congruence; lia]);
    change (PosDef.Pos.compare_cont Eq m1 m2) with (Pos.compare m1 m2);
    (destruct (Z.compare_spec e1 e2) as [He|He|He];
      [destruct (Pos.compare_spec m1 m2) as [Hm|Hm|Hm]; simpl| |];
      (split; [intros H; try discriminate H; repeat split; try discriminate; lia
              | intros (_ & _ & H); try reflexivity; lia])).
Qed.

Lemma leb_trans (x y z : number) :
  leb x y = true -> leb y z = true -> leb x z = true.
Proof.
  rewrite !leb_rank. intros (Hx & _ & Hxy) (_ & Hz & Hyz).
  repeat split; auto.
  unfold lex_le in *.
  destruct (rank x) as [[a1 a2] a3], (rank y) as [[b1 b2] b3],
    (rank z) as [[c1 c2] c3]. lia.
Qed.

(** ** [optimizeLayout] *)

Section OptimizerFacts.

Variable measureText : Context -> string -> number.

Abbreviation loop := (optimizeLayout_loop measureText).
Abbreviation fitsAt := (fits measureText).
Abbreviation tryAt := (layoutAt measureText).

(** One turn of the [while] loop. *)
Lemma optimizeLayout_loop_turn text maxWidth maxHeight minFontSize size :
  loop text maxWidth maxHeight minFontSize size =
  if minFontSize <=? size
  then if fitsAt text maxWidth maxHeight size
       then Some (tryAt text maxWidth size)
       else loop text maxWidth maxHeight minFontSize (size - 1)
  else None.
Proof.
  simp optimizeLayout_loop.
  destruct (Z_le_dec minFontSize size) as [Hle|Hgt]; simpl.
  - apply Z.leb_le in Hle. rewrite Hle.
    destruct (fitsAt text maxWidth maxHeight size); [reflexivity|].
    now simp optimizeLayout_loop.
  - apply Z.leb_nle in Hgt. now rewrite Hgt.
Qed.

(** What the [while] loop started at [start] returns: the first size
    on the way down from [start] that fits, or nothing when no size
    from [start] down to [minFontSize] fits. *)
Lemma optimizeLayout_loop_spec text maxWidth maxHeight minFontSize start :
  match loop text maxWidth maxHeight minFontSize start with
  | Some l =>
      exists size, l = tryAt text maxWidth size /\
        minFontSize <= size <= start /\
        fitsAt text maxWidth maxHeight size = true /\
        (forall s, size < s <= start ->
                   fitsAt text maxWidth maxHeight s = false)
  | None =>
      forall s, minFontSize <= s <= start ->
                fitsAt text maxWidth maxHeight s = false
  end.
Proof.
  remember (Z.to_nat (start - minFontSize + 1)) as n eqn:Hn.
  revert start Hn.
  induction n as [|n IH]; intros start Hn;
    rewrite optimizeLayout_loop_turn;
    destruct (Z.leb_spec minFontSize start) as [Hle|Hgt];
    try (intros s Hs; lia).
  - lia.
  - destruct (fitsAt text maxWidth maxHeight start) eqn:Hfit.
    + exists start. repeat split; try lia; auto.
    + assert (Hn' : n = Z.to_nat (start - 1 - minFontSize + 1)) by lia.
      specialize (IH (start - 1) Hn').
      destruct (loop text maxWidth maxHeight minFontSize (start - 1)).
      * destruct IH as (size & -> & Hr & Hf & Hmax).
        exists size. repeat split; try lia; auto.
        intros s Hs. destruct (Z.eq_dec s start) as [->|Hne]; auto.
        apply Hmax. lia.
      * intros s Hs. destruct (Z.eq_dec s start) as [->|Hne]; auto.
        apply IH. lia.
Qed.

End OptimizerFacts.

(** ** The walk over the lines of a frame *)

Lemma charCount_nonneg (ls : list string) : 0 <= charCount ls.
Proof.
  induction ls as [|l ls IH]; simpl; [lia|]. pose proof (len_nonneg l). lia.
Qed.

(** What has been pushed so far stays in front. *)
Lemma typeLines_pushed (ls : list string) (v : integral) (c : Z)
    (pushed : list string) :
  typeLines ls v c pushed = pushed ++ typeLines ls v c [].
Proof.
  revert c pushed. induction ls as [|line rest IH]; intros c pushed; simpl.
  - now rewrite app_nil_r.
  - destruct (le_integral _ v).
    + rewrite IH, (IH _ [line]), <- app_assoc. reflexivity.
    + reflexivity.
Qed.

Lemma typeLines_cons (line : string) (rest : list string) (v : integral)
    (c : Z) :
  typeLines (line :: rest) v c [] =
  if le_integral (c + Str.len line) v
  then line :: typeLines rest v (c + Str.len line) []
  else [Str.slice0 line (sub_integral v c)].
Proof.
  simpl. destruct (le_integral _ v); [|reflexivity].
  now rewrite typeLines_pushed.
Qed.

(** With [c] characters counted and a count [v] of visible characters
    not yet exceeded, the walk keeps [k] whole lines and, if a line is
    left, cuts it to the characters that remain. *)
Lemma typeLines_walk (ls : list string) (v c : Z) :
  c <= v ->
  exists k : nat,
    (k <= List.length ls)%nat /\
    c + charCount (firstn k ls) <= v /\
    (k = List.length ls -> typeLines ls (Int v) c [] = ls) /\
    (forall line, nth_error ls k = Some line ->
       v < c + charCount (firstn k ls) + Str.len line /\
       typeLines ls (Int v) c [] =
         firstn k ls ++
         [Str.take (Z.to_nat (v - (c + charCount (firstn k ls)))) line]).
Proof.
  revert c. induction ls as [|line rest IH]; intros c Hc.
  - exists 0%nat. simpl. split; [lia|]. split; [lia|]. split; [reflexivity|].
    intros l H. discriminate.
  - rewrite typeLines_cons. simpl le_integral.
    destruct (Z.leb_spec (c + Str.len line) v) as [Hfit|Hover].
    + destruct (IH (c + Str.len line) Hfit) as (k & Hk & Hsum & Hall & Hcut).
      exists (S k). simpl. split; [lia|]. split; [lia|]. split.
      * intros Hlen. f_equal. apply Hall. lia.
      * intros l H. destruct (Hcut l H) as [Hlt ->]. split; [lia|].
        now rewrite Z.add_assoc.
    + exists 0%nat. simpl. split; [lia|]. split; [lia|]. split; [lia|].
      intros l H. injection H as <-. split; [lia|].
      pose proof (len_nonneg line).
      rewrite slice0_Int by lia. now rewrite Z.add_0_r.
Qed.

Lemma is_prefix_refl (s : string) : Str.is_prefix s s.
Proof.
  exists EmptyString. induction s as [|c s IH]; simpl; [reflexivity|].
  now rewrite <- IH.
Qed.

Lemma PrefixOfLines_refl (ls : list string) : PrefixOfLines ls ls.
Proof. induction ls; constructor; auto. Qed.

Lemma typeLines_PrefixOfLines (ls : list string) (v : integral) (c : Z) :
  PrefixOfLines (typeLines ls v c []) ls.
Proof.
  revert c. induction ls as [|line rest IH]; intros c.
  - constructor.
  - rewrite typeLines_cons. destruct (le_integral _ v).
    + constructor. apply IH.
    + constructor. apply slice0_is_prefix.
Qed.

Lemma PrefixOfLines_length (d ls : list string) :
  PrefixOfLines d ls -> (List.length d <= List.length ls)%nat.
Proof. induction 1; simpl; lia. Qed.

Lemma PrefixOfLines_whole (d ls : list string) :
  PrefixOfLines d ls ->
  forall j, (S j < List.length d)%nat -> nth_error d j = nth_error ls j.
Proof.
  induction 1 as [ls|p line rest Hp|line d rest H IH]; intros j Hj;
    simpl in Hj; try lia.
  destruct j as [|j]; [reflexivity|]. simpl. apply IH. lia.
Qed.

Lemma PrefixOfLines_last (d ls : list string) :
  PrefixOfLines d ls ->
  forall p, nth_error d (List.length d - 1) = Some p ->
  exists line, nth_error ls (List.length d - 1) = Some line /\
               Str.is_prefix p line.
Proof.
  induction 1 as [ls|p line rest Hp|line d rest H IH]; intros q Hq.
  - discriminate.
  - simpl in *. injection Hq as <-. eauto.
  - destruct d as [|x d].
    + simpl in *. injection Hq as <-. exists line.
      split; auto using is_prefix_refl.
    + simpl List.length in *.
      replace (S (S (List.length d)) - 1)%nat with (S (List.length d)) in * by lia.
      replace (S (List.length d) - 1)%nat with (List.length d) in IH by lia.
      simpl in Hq |- *. apply IH. exact Hq.
Qed.

Lemma typeLines_not_nil (ls : list string) (v : integral) (c : Z) :
  ls <> [] -> typeLines ls v c [] <> [].
Proof.
  destruct ls as [|line rest]; [congruence|]. intros _.
  rewrite typeLines_cons. destruct (le_integral _ v); discriminate.
Qed.

(** With no visible character, whatever is shown is empty. *)
Lemma typeLines_zero_empty (ls : list string) :
  forall l, In l (typeLines ls (Int 0) 0 []) -> l = EmptyString.
Proof.
  induction ls as [|line rest IH]; intros l.
  - intros [].
  - rewrite typeLines_cons, Z.add_0_l. unfold le_integral.
    pose proof (len_nonneg line).
    destruct (Z.leb_spec (Str.len line) 0) as [Hfit|Hover].
    + assert (Hz : Str.len line = 0) by lia. rewrite Hz.
      intros [<-|Hin]; [now apply len_zero | now apply IH].
    + intros [<-|[]]. simpl sub_integral. rewrite slice0_Int by lia.
      now destruct line.
Qed.

(* ===================================================================== *)
(** ** What the floating-point operations compute *)
(* ===================================================================== *)

(** *** Powers of two and rounding to an integer *)

Lemma pow2_pos e : (0 < pow2 e)%Q.
Proof. apply Qpower_0_lt. reflexivity. Qed.

Lemma pow2_add a b : (pow2 (a + b) == pow2 a * pow2 b)%Q.
Proof. apply Qpower_plus. discriminate. Qed.

Lemma pow2_le a b : a <= b -> (pow2 a <= pow2 b)%Q.
Proof. intros H. apply Qpower_le_compat_l; [exact H | discriminate]. Qed.

Lemma pow2_Z n : 0 <= n -> (pow2 n == inject_Z (2 ^ n))%Q.
Proof. intros H. unfold pow2. now rewrite Zpower_Qpower. Qed.

Lemma classify_range l d : classify l d -> (0 <= d /\ d < 1)%Q.
Proof. destruct l as [|[| |]]; simpl; intros H; lra. Qed.

Lemma Qfloor_add_frac (m : Z) (d : Q) :
  (0 <= d)%Q -> (d < 1)%Q -> Qfloor (inject_Z m + d) = m.
Proof.
  intros H0 H1.
  pose proof (Qfloor_le (inject_Z m + d)) as Hl.
  pose proof (Qlt_floor (inject_Z m + d)) as Hu.
  remember (Qfloor (inject_Z m + d)) as f eqn:Hf. clear Hf.
  assert (inject_Z f < inject_Z (m + 1))%Q as A.
  { rewrite inject_Z_plus. change (inject_Z 1) with 1%Q. lra. }
  assert (inject_Z m < inject_Z (f + 1))%Q as B by lra.
  rewrite <- Zlt_Qlt in A, B. lia.
Qed.

Instance rne_comp : Proper (Qeq ==> eq) rne.
Proof.
  intros u v Huv. unfold rne.
  rewrite (Qfloor_comp _ _ Huv).
  assert ((u - inject_Z (Qfloor v) ?= 1 # 2) = (v - inject_Z (Qfloor v) ?= 1 # 2))%Q as ->.
  { now rewrite Huv. }
  reflexivity.
Qed.

Lemma rne_classify (m : Z) (l : location) (d : Q) :
  classify l d -> rne (inject_Z m + d) = round_nearest_even m l.
Proof.
  intros Hc. pose proof (classify_range l d Hc) as [H0 H1].
  unfold rne. rewrite Qfloor_add_frac by assumption.
  destruct l as [|[| |]]; simpl in *.
  - assert ((inject_Z m + d - inject_Z m ?= 1 # 2) = Lt)%Q as ->; [|reflexivity].
    rewrite <- Qlt_alt. lra.
  - assert ((inject_Z m + d - inject_Z m ?= 1 # 2) = Eq)%Q as ->; [|reflexivity].
    rewrite <- Qeq_alt. lra.
  - assert ((inject_Z m + d - inject_Z m ?= 1 # 2) = Lt)%Q as ->; [|reflexivity].
    rewrite <- Qlt_alt. lra.
  - assert ((inject_Z m + d - inject_Z m ?= 1 # 2) = Gt)%Q as ->; [|reflexivity].
    rewrite <- Qgt_alt. lra.
Qed.

Lemma rne_bounds (u : Q) : Qfloor u <= rne u <= Qfloor u + 1.
Proof.
  unfold rne. destruct (_ ?= _)%Q; [destruct (Z.even _)| |]; lia.
Qed.

Lemma rne_monotone (u v : Q) : (u <= v)%Q -> rne u <= rne v.
Proof.
  intros Huv. pose proof (Qfloor_resp_le _ _ Huv) as Hf.
  pose proof (rne_bounds u). pose proof (rne_bounds v).
  destruct (Z.eq_dec (Qfloor u) (Qfloor v)) as [E|NE]; [|lia].
  unfold rne in *. rewrite E in *.
  destruct (Qcompare_spec (u - inject_Z (Qfloor v)) (1 # 2)) as [A|A|A];
  destruct (Qcompare_spec (v - inject_Z (Qfloor v)) (1 # 2)) as [B|B|B];
    try destruct (Z.even _); try lia; exfalso; lra.
Qed.

Lemma rne_Z (z : Z) : rne (inject_Z z) = z.
Proof.
  unfold rne. rewrite Qfloor_Z.
  assert ((inject_Z z - inject_Z z ?= 1 # 2) = Lt)%Q as ->; [|reflexivity].
  rewrite <- Qlt_alt. lra.
Qed.

(** ** Shifting right with a round and a sticky bit *)

Lemma inject_Z_xO p : (inject_Z (Zpos p~0) == 2 * inject_Z (Zpos p))%Q.
Proof. rewrite Pos2Z.inj_xO, inject_Z_mult. reflexivity. Qed.

Lemma inject_Z_xI p : (inject_Z (Zpos p~1) == 2 * inject_Z (Zpos p) + 1)%Q.
Proof. rewrite Pos2Z.inj_xI, inject_Z_plus, inject_Z_mult. reflexivity. Qed.

Lemma shr_1_spec (mrs : shr_record) (d : Q) :
  0 <= shr_m mrs -> classify (loc_of_shr_record mrs) d ->
  0 <= shr_m (shr_1 mrs) /\
  exists d', classify (loc_of_shr_record (shr_1 mrs)) d' /\
    ((inject_Z (shr_m (shr_1 mrs)) + d') * 2 == inject_Z (shr_m mrs) + d)%Q.
Proof.
  destruct mrs as [m r s]. simpl shr_m at 1. intros Hm Hc.
  destruct m as [|[p|p|]|p]; try lia.
  - (* m = 0 *)
    split; [destruct r, s; simpl; lia|].
    exists (d * (1 # 2))%Q.
    destruct r, s; simpl in *; change (inject_Z 0) with 0%Q; split; try lra.
  - (* m = 2p + 1 *)
    split; [destruct r, s; simpl; lia|].
    exists ((1 + d) * (1 # 2))%Q.
    destruct r, s; simpl in *; rewrite ?inject_Z_xI; split; try lra.
  - (* m = 2p *)
    split; [destruct r, s; simpl; lia|].
    exists (d * (1 # 2))%Q.
    destruct r, s; simpl in *; rewrite ?inject_Z_xO; split; try lra.
  - (* m = 1 *)
    split; [destruct r, s; simpl; lia|].
    exists ((1 + d) * (1 # 2))%Q.
    destruct r, s; simpl in *; change (inject_Z 0) with 0%Q;
      change (inject_Z 1) with 1%Q; split; try lra.
Qed.

Lemma iter_pos_nat {A : Type} (f : A -> A) (p : positive) (x : A) :
  iter_pos f p x = Nat.iter (Pos.to_nat p) f x.
Proof.
  revert x. induction p as [p IH|p IH|]; intros x; simpl iter_pos.
  - rewrite !IH, Pos2Nat.inj_xI, <- Nat.iter_succ_r.
    replace (S (2 * Pos.to_nat p)) with (Pos.to_nat p + S (Pos.to_nat p))%nat by lia.
    now rewrite Nat.iter_add.
  - rewrite !IH, Pos2Nat.inj_xO.
    replace (2 * Pos.to_nat p)%nat with (Pos.to_nat p + Pos.to_nat p)%nat by lia.
    now rewrite Nat.iter_add.
  - reflexivity.
Qed.

Lemma shr_nat_spec (n : nat) (mrs : shr_record) (d : Q) :
  0 <= shr_m mrs -> classify (loc_of_shr_record mrs) d ->
  0 <= shr_m (Nat.iter n shr_1 mrs) /\
  exists d', classify (loc_of_shr_record (Nat.iter n shr_1 mrs)) d' /\
    ((inject_Z (shr_m (Nat.iter n shr_1 mrs)) + d') * pow2 (Z.of_nat n)
     == inject_Z (shr_m mrs) + d)%Q.
Proof.
  intros Hm Hc. induction n as [|n IH].
  - cbn [Nat.iter nat_rect]. split; [exact Hm|]. exists d. split; [exact Hc|].
    change (pow2 (Z.of_nat 0)) with 1%Q. lra.
  - destruct IH as (Hm' & d' & Hc' & He).
    simpl Nat.iter.
    destruct (shr_1_spec _ _ Hm' Hc') as (Hm'' & d'' & Hc'' & He'').
    split; [exact Hm''|]. exists d''. split; [exact Hc''|].
    rewrite Nat2Z.inj_succ. unfold Z.succ. rewrite pow2_add.
    change (pow2 1) with 2%Q. rewrite <- He, <- He''. ring.
Qed.

Lemma shr_spec (mrs : shr_record) (e n : Z) (d : Q) :
  0 <= n -> 0 <= shr_m mrs -> classify (loc_of_shr_record mrs) d ->
  snd (shr mrs e n) = e + n /\
  0 <= shr_m (fst (shr mrs e n)) /\
  exists d', classify (loc_of_shr_record (fst (shr mrs e n))) d' /\
    ((inject_Z (shr_m (fst (shr mrs e n))) + d') * pow2 n
     == inject_Z (shr_m mrs) + d)%Q.
Proof.
  intros Hn Hm Hc. destruct n as [|p|p]; try lia.
  - cbn [shr fst snd]. split; [lia|]. split; [exact Hm|]. exists d.
    split; [exact Hc|]. change (pow2 0) with 1%Q. lra.
  - simpl fst. simpl snd. split; [reflexivity|].
    rewrite iter_pos_nat, <- (positive_nat_Z p).
    apply shr_nat_spec; assumption.
Qed.

Lemma loc_of_shr_record_of_loc m l :
  loc_of_shr_record (shr_record_of_loc m l) = l.
Proof. destruct l as [|[| |]]; reflexivity. Qed.

Lemma shr_m_of_loc m l : shr_m (shr_record_of_loc m l) = m.
Proof. destruct l as [|[| |]]; reflexivity. Qed.

(** ** Number of binary digits *)

Lemma digits2_size p : digits2_pos p = Pos.size p.
Proof. induction p; simpl; now rewrite ?IHp. Qed.

Lemma Zdigits2_bounds (p : positive) :
  2 ^ (Zdigits2 (Zpos p) - 1) <= Zpos p < 2 ^ Zdigits2 (Zpos p).
Proof.
  unfold Zdigits2. rewrite digits2_size.
  pose proof (Pos.size_gt p) as Hgt. pose proof (Pos.size_le p) as Hle.
  apply Pos2Z.pos_lt_pos in Hgt. apply Pos2Z.pos_le_pos in Hle.
  pose proof (Pos2Z.inj_pow 2 (Pos.size p)) as Hpow.
  pose proof (Pos2Z.inj_xO p) as HxO.
  assert (Hs : 2 ^ Zpos (Pos.size p) = 2 * 2 ^ (Zpos (Pos.size p) - 1)).
  { rewrite <- Z.pow_succ_r by lia. f_equal. lia. }
  lia.
Qed.

Lemma Zdigits2_unique (p : positive) (k : Z) :
  2 ^ (k - 1) <= Zpos p < 2 ^ k -> Zdigits2 (Zpos p) = k.
Proof.
  intros [Hl Hu]. pose proof (Zdigits2_bounds p) as [Hl' Hu'].
  remember (Zdigits2 (Zpos p)) as d eqn:Hd.
  assert (0 < d) by (subst d; simpl; lia).
  assert (0 < k).
  { destruct (Z.ltb_spec 0 k) as [|Hk]; [assumption|].
    assert (2 ^ k <= 1); [|lia].
    destruct (Z.eq_dec k 0) as [->|]; [simpl; lia|].
    rewrite Z.pow_neg_r by lia. lia. }
  destruct (Z.lt_trichotomy d k) as [Hlt|[Heq|Hgt]]; [|exact Heq|].
  - assert (2 ^ d <= 2 ^ (k - 1)) by (apply Z.pow_le_mono_r; lia). lia.
  - assert (2 ^ k <= 2 ^ (d - 1)) by (apply Z.pow_le_mono_r; lia). lia.
Qed.

(** ** Rounding to binary64 *)

Lemma fexp_normal (e : Z) : -1021 <= e -> fexp prec emax e = e - 53.
Proof. unfold fexp, emin, prec, emax. lia. Qed.

Lemma Qmult_le_cancel_r (a b c : Q) : (0 < c)%Q -> (a * c <= b * c)%Q -> (a <= b)%Q.
Proof. intros Hc H. now apply Qmult_le_r in H. Qed.

Lemma Qmult_lt_cancel_r (a b c : Q) : (0 < c)%Q -> (a * c < b * c)%Q -> (a < b)%Q.
Proof. intros Hc H. now apply Qmult_lt_r in H. Qed.

Lemma binary_round_aux_spec (p : positive) (ex : Z) (lx : location) (d x : Q) :
  classify lx d ->
  (x == (inject_Z (Zpos p) + d) * pow2 ex)%Q ->
  53 <= Zdigits2 (Zpos p) ->
  -900 <= Zdigits2 (Zpos p) + ex <= 900 ->
  exists m e,
    binary_round_aux prec emax false (Zpos p) ex lx = S754_finite false m e /\
    rounds_to (Zdigits2 (Zpos p) + ex) x (Zpos m) e.
Proof.
  intros Hc Hx Hdig Hg.
  pose proof (Zdigits2_bounds p) as [Hlo Hhi].
  remember (Zdigits2 (Zpos p)) as dg eqn:Hdg.
  set (g := dg + ex) in *.
  pose proof (classify_range _ _ Hc) as [Hd0 Hd1].
  (* the first shift *)
  unfold binary_round_aux, shr_fexp. rewrite <- Hdg.
  rewrite (fexp_normal (dg + ex)) by (unfold g in Hg; lia).
  destruct (shr_spec (shr_record_of_loc (Zpos p) lx) ex (dg + ex - 53 - ex) d)
    as (He1 & Hm1 & d1 & Hc1 & Hv1).
  { lia. }
  { rewrite shr_m_of_loc. lia. }
  { now rewrite loc_of_shr_record_of_loc. }
  rewrite shr_m_of_loc in Hv1.
  destruct (shr (shr_record_of_loc (Zpos p) lx) ex (dg + ex - 53 - ex))
    as [mrs1 e1]. simpl fst in *. simpl snd in *.
  remember (shr_m mrs1) as m1 eqn:Hm1eq.
  assert (He1' : e1 = g - 53) by (unfold g; lia). clear He1.
  pose proof (classify_range _ _ Hc1) as [Hd10 Hd11].
  (* the value, scaled to the target exponent *)
  set (P := pow2 (g - 53)).
  assert (HP : (0 < P)%Q) by apply pow2_pos.
  assert (HU : ((inject_Z m1 + d1) * P == x)%Q).
  { rewrite Hx, <- Hv1. unfold P.
    replace (g - 53) with ((dg + ex - 53 - ex) + ex) by (unfold g; lia).
    rewrite pow2_add. ring. }
  assert (Hxlo : (pow2 (g - 1) <= x)%Q).
  { rewrite Hx. replace (g - 1) with ((dg - 1) + ex) by (unfold g; lia).
    rewrite pow2_add. apply Qmult_le_compat_r; [|apply Qlt_le_weak, pow2_pos].
    rewrite pow2_Z by lia. rewrite Zle_Qle in Hlo. lra. }
  assert (Hxhi : (x < pow2 g)%Q).
  { rewrite Hx. unfold g. rewrite pow2_add.
    apply Qmult_lt_compat_r; [apply pow2_pos|].
    rewrite pow2_Z by lia.
    assert (Zpos p + 1 <= 2 ^ dg) as Hp1 by lia.
    rewrite Zle_Qle, inject_Z_plus in Hp1. change (inject_Z 1) with 1%Q in Hp1.
    lra. }
  assert (HUlo : (inject_Z (2 ^ 52) <= inject_Z m1 + d1)%Q).
  { apply Qmult_le_cancel_r with P; [exact HP|].
    rewrite HU, <- (pow2_Z 52) by lia. unfold P. rewrite <- pow2_add.
    replace (52 + (g - 53)) with (g - 1) by lia. exact Hxlo. }
  assert (HUhi : (inject_Z m1 + d1 < inject_Z (2 ^ 53))%Q).
  { apply Qmult_lt_cancel_r with P; [exact HP|].
    rewrite HU, <- (pow2_Z 53) by lia. unfold P. rewrite <- pow2_add.
    replace (53 + (g - 53)) with g by lia. exact Hxhi. }
  assert (Hm1lo : 2 ^ 52 <= m1).
  { assert (inject_Z (2 ^ 52) < inject_Z (m1 + 1))%Q as A.
    { rewrite inject_Z_plus. change (inject_Z 1) with 1%Q. lra. }
    rewrite <- Zlt_Qlt in A. lia. }
  assert (Hm1hi : m1 < 2 ^ 53).
  { assert (inject_Z m1 < inject_Z (2 ^ 53))%Q as A by lra.
    now rewrite <- Zlt_Qlt in A. }
  (* rounding *)
  assert (Hrne : rne (x / P) = round_nearest_even m1 (loc_of_shr_record mrs1)).
  { rewrite <- (rne_classify m1 _ d1 Hc1). apply rne_comp.
    rewrite <- HU. apply Qdiv_mult_l. lra. }
  pose proof (rne_bounds (inject_Z m1 + d1)) as Hzb.
  rewrite (Qfloor_add_frac m1 d1 Hd10 Hd11) in Hzb.
  rewrite (rne_classify m1 _ d1 Hc1) in Hzb.
  remember (round_nearest_even m1 (loc_of_shr_record mrs1)) as z eqn:Hz.
  (* the second shift *)
  assert (Hzcase : z < 2 ^ 53 \/ z = 2 ^ 53) by lia.
  destruct Hzcase as [Hzlt|Hzeq].
  - destruct z as [|q|q]; try lia.
    assert (Hdq : Zdigits2 (Zpos q) = 53).
    { apply Zdigits2_unique. simpl Z.sub. lia. }
    rewrite Hdq, (fexp_normal (53 + e1)) by lia.
    replace (53 + e1 - 53 - e1) with 0 by lia.
    cbn [shr shr_record_of_loc shr_m].
    assert (Hle : (e1 <=? emax - prec) = true)
      by (apply Z.leb_le; unfold emax, prec; lia).
    rewrite Hle. exists q, e1. split; [reflexivity|].
    repeat split; try assumption; try lia.
    fold P. rewrite Hrne, He1'. reflexivity.
  - rewrite Hzeq.
    change (Zdigits2 (2 ^ 53)) with 54.
    rewrite (fexp_normal (54 + e1)) by lia.
    replace (54 + e1 - 53 - e1) with 1 by lia.
    cbn.
    assert (Hle : (e1 + 1 <=? 971) = true)
      by (apply Z.leb_le; lia).
    rewrite Hle. eexists _, _. split; [reflexivity|].
    repeat split; try assumption; try lia.
    fold P. rewrite Hrne, Hzeq, He1'.
    replace (g - 53 + 1) with (1 + (g - 53)) by lia.
    rewrite pow2_add. fold P. change (pow2 1) with 2%Q.
    change (inject_Z (Z.pos 4503599627370496)) with (inject_Z (2 ^ 52)).
    change (2 ^ 53) with (2 * 2 ^ 52). rewrite inject_Z_mult.
    change (inject_Z 2) with 2%Q. ring.
Qed.

Lemma pow2_lt_inv a b : (pow2 a < pow2 b)%Q -> a < b.
Proof.
  intros H. destruct (Z.lt_ge_cases a b) as [|Hge]; [assumption|].
  apply pow2_le in Hge. lra.
Qed.

Lemma scaled_bounds (g : Z) (x : Q) :
  (pow2 (g - 1) <= x)%Q -> (x < pow2 g)%Q ->
  (inject_Z (2 ^ 52) <= x / pow2 (g - 53) /\
   x / pow2 (g - 53) < inject_Z (2 ^ 53))%Q.
Proof.
  intros Hlo Hhi.
  assert (HP : (0 < pow2 (g - 53))%Q) by apply pow2_pos.
  split.
  - apply Qmult_le_cancel_r with (pow2 (g - 53)); [exact HP|].
    rewrite Qmult_comm, (Qmult_comm (x / _)), Qmult_div_r by lra.
    rewrite Qmult_comm, <- (pow2_Z 52), <- pow2_add by lia.
    now replace (52 + (g - 53)) with (g - 1) by lia.
  - apply Qmult_lt_cancel_r with (pow2 (g - 53)); [exact HP|].
    rewrite (Qmult_comm (x / _)), Qmult_div_r by lra.
    rewrite <- (pow2_Z 53), <- pow2_add by lia.
    now replace (53 + (g - 53)) with g by lia.
Qed.

Lemma rne_scaled_bounds (g : Z) (x : Q) :
  (pow2 (g - 1) <= x)%Q -> (x < pow2 g)%Q ->
  2 ^ 52 <= rne (x / pow2 (g - 53)) <= 2 ^ 53.
Proof.
  intros Hlo Hhi. destruct (scaled_bounds g x Hlo Hhi) as [Hul Huh].
  pose proof (rne_monotone _ _ Hul) as Hl. rewrite rne_Z in Hl.
  pose proof (rne_monotone _ _ (Qlt_le_weak _ _ Huh)) as Hh.
  rewrite rne_Z in Hh. lia.
Qed.

(** Rounding is monotone. *)
Lemma rounds_to_monotone g x m e g' x' m' e' :
  rounds_to g x m e -> rounds_to g' x' m' e' -> (x <= x')%Q ->
  (inject_Z m * pow2 e <= inject_Z m' * pow2 e')%Q.
Proof.
  intros ([Hlo Hhi] & _ & _ & Hv) ([Hlo' Hhi'] & _ & _ & Hv') Hxx.
  rewrite Hv, Hv'.
  pose proof (rne_scaled_bounds g x Hlo Hhi) as Hz.
  pose proof (rne_scaled_bounds g' x' Hlo' Hhi') as Hz'.
  assert (Hgg : g - 1 < g') by (apply pow2_lt_inv; lra).
  assert (HP : (0 < pow2 (g - 53))%Q) by apply pow2_pos.
  assert (HP' : (0 < pow2 (g' - 53))%Q) by apply pow2_pos.
  destruct (Z.eq_dec g g') as [<-|Hne].
  - apply Qmult_le_compat_r; [|lra].
    rewrite <- Zle_Qle. apply rne_monotone.
    apply Qmult_le_compat_r; [exact Hxx|].
    apply Qlt_le_weak, Qinv_lt_0_compat, HP.
  - apply Qle_trans with (pow2 g).
    + assert (E : (pow2 g == pow2 53 * pow2 (g - 53))%Q).
      { rewrite <- pow2_add. now replace (53 + (g - 53)) with g by lia. }
      rewrite E. apply Qmult_le_compat_r; [|lra].
      rewrite (pow2_Z 53) by lia. rewrite <- Zle_Qle. lia.
    + apply Qle_trans with (pow2 (g' - 1)); [apply pow2_le; lia|].
      assert (E : (pow2 (g' - 1) == pow2 52 * pow2 (g' - 53))%Q).
      { rewrite <- pow2_add. now replace (52 + (g' - 53)) with (g' - 1) by lia. }
      rewrite E. apply Qmult_le_compat_r; [|lra].
      rewrite (pow2_Z 52) by lia. rewrite <- Zle_Qle. lia.
Qed.

(** A rounded value stays on the same side of a representable one. *)
Lemma rounds_to_exact g (z : Z) m e :
  rounds_to g (inject_Z z) m e -> 0 < z < 2 ^ 53 ->
  (inject_Z m * pow2 e == inject_Z z)%Q.
Proof.
  intros ([Hlo Hhi] & _ & _ & Hv) Hz. rewrite Hv.
  assert (Hg : g <= 53).
  { assert (g - 1 < 53); [|lia]. apply pow2_lt_inv.
    apply Qle_lt_trans with (inject_Z z); [exact Hlo|].
    rewrite pow2_Z by lia. rewrite <- Zlt_Qlt. lia. }
  assert (Hs : (inject_Z z / pow2 (g - 53) == inject_Z (z * 2 ^ (53 - g)))%Q).
  { rewrite inject_Z_mult, <- (pow2_Z (53 - g)) by lia.
    replace (g - 53) with (- (53 - g)) by lia.
    unfold pow2 at 1. rewrite Qpower_opp. fold (pow2 (53 - g)).
    unfold Qdiv. now rewrite Qinv_involutive. }
  rewrite (rne_comp _ _ Hs), rne_Z, inject_Z_mult, <- (pow2_Z (53 - g)) by lia.
  rewrite <- Qmult_assoc, <- pow2_add.
  replace (53 - g + (g - 53)) with 0 by lia. change (pow2 0) with 1%Q. ring.
Qed.

(** ** The operations *)

Lemma Zdigits2_ge (p : positive) (k : Z) :
  2 ^ (k - 1) <= Zpos p -> k <= Zdigits2 (Zpos p).
Proof.
  intros H. pose proof (Zdigits2_bounds p) as [_ Hu].
  assert (0 < Zdigits2 (Zpos p)) by (simpl; lia).
  destruct (Z.le_gt_cases k (Zdigits2 (Zpos p))) as [|Hgt]; [assumption|].
  assert (2 ^ Zdigits2 (Zpos p) <= 2 ^ (k - 1))
    by (apply Z.pow_le_mono_r; lia).
  lia.
Qed.

Lemma Zdigits2_le (p : positive) (k : Z) :
  0 <= k -> Zpos p < 2 ^ k -> Zdigits2 (Zpos p) <= k.
Proof.
  intros Hk H. pose proof (Zdigits2_bounds p) as [Hl _].
  destruct (Z.le_gt_cases (Zdigits2 (Zpos p)) k) as [|Hgt]; [assumption|].
  assert (2 ^ k <= 2 ^ (Zdigits2 (Zpos p) - 1))
    by (apply Z.pow_le_mono_r; lia).
  lia.
Qed.

Lemma Zdigits2_shift (p : positive) (n : Z) :
  0 <= n -> Zdigits2 (Zpos p * 2 ^ n) = Zdigits2 (Zpos p) + n.
Proof.
  intros Hn. pose proof (Zdigits2_bounds p) as [Hl Hu].
  assert (Hd : 0 < Zdigits2 (Zpos p)) by (simpl; lia).
  assert (Hpos : 0 < 2 ^ n) by (apply Z.pow_pos_nonneg; lia).
  destruct (Zpos p * 2 ^ n) as [|q|q] eqn:Hq; try lia.
  apply Zdigits2_unique. rewrite <- Hq.
  replace (Zdigits2 (Zpos p) + n - 1) with (Zdigits2 (Zpos p) - 1 + n) by lia.
  rewrite !Z.pow_add_r by lia. split.
  - apply Z.mul_le_mono_nonneg_r; lia.
  - apply Z.mul_lt_mono_pos_r; lia.
Qed.

Lemma iter_xO (p d : positive) :
  Zpos (Pos.iter xO p d) = Zpos p * 2 ^ Zpos d.
Proof.
  rewrite <- (Pos2Z.inj_pow 2 d), <- Pos2Z.inj_mul. f_equal.
  induction d as [|d IH] using Pos.peano_ind.
  - simpl. lia.
  - rewrite Pos.iter_succ, IH, Pos.pow_succ_r. lia.
Qed.

Lemma shl_align_spec (p : positive) (ex ex' : Z) :
  snd (shl_align p ex ex') = Z.min ex ex' /\
  Zpos (fst (shl_align p ex ex')) = Zpos p * 2 ^ (ex - Z.min ex ex').
Proof.
  unfold shl_align. destruct (ex' - ex) as [|d|d] eqn:Hd; simpl fst; simpl snd.
  - replace (Z.min ex ex') with ex by lia. rewrite Z.sub_diag. simpl. lia.
  - replace (Z.min ex ex') with ex by lia. rewrite Z.sub_diag. simpl. lia.
  - replace (Z.min ex ex') with ex' by lia.
    replace (ex - ex') with (Zpos d) by lia. split; [reflexivity|apply iter_xO].
Qed.

Lemma of_Z_spec (k : Z) :
  0 < k <= 2 ^ 53 ->
  exists m e,
    of_Z k = S754_finite false m e /\
    rounds_to (Zdigits2 k) (inject_Z k) (Zpos m) e.
Proof.
  intros Hk. destruct k as [|p|p]; try lia.
  unfold of_Z, binary_normalize, binary_round.
  pose proof (Zdigits2_bounds p) as [Hl Hu].
  assert (Hd1 : 1 <= Zdigits2 (Zpos p)) by (simpl; lia).
  assert (Hd2 : Zdigits2 (Zpos p) <= 54).
  { apply Zdigits2_le; lia. }
  change (Zpos (digits2_pos p)) with (Zdigits2 (Zpos p)).
  remember (Zdigits2 (Zpos p)) as dg eqn:Hdg.
  rewrite (fexp_normal (dg + 0)) by lia.
  destruct (shl_align_spec p 0 (dg + 0 - 53)) as [Hez Hmz].
  destruct (shl_align p 0 (dg + 0 - 53)) as [mz ez]. simpl fst in *. simpl snd in *.
  assert (Hdz : Zdigits2 (Zpos mz) = dg + (0 - ez)).
  { rewrite Hmz, Hez, Hdg. apply Zdigits2_shift. lia. }
  destruct (binary_round_aux_spec mz ez loc_Exact 0 (inject_Z (Zpos p)))
    as (m & e & Hr & Hrt).
  - simpl. reflexivity.
  - rewrite Hmz, Hez, inject_Z_mult, <- pow2_Z by lia.
    rewrite Qplus_0_r, <- Qmult_assoc, <- pow2_add.
    replace (0 - Z.min 0 (dg + 0 - 53) + Z.min 0 (dg + 0 - 53)) with 0 by lia.
    change (pow2 0) with 1%Q. ring.
  - lia.
  - lia.
  - exists m, e. split; [exact Hr|].
    now replace (Zdigits2 (Zpos mz) + ez) with dg in Hrt by lia.
Qed.

Lemma mul_spec (m1 m2 : positive) (e1 e2 : Z) :
  2 ^ 52 <= Zpos m1 < 2 ^ 53 -> 2 ^ 52 <= Zpos m2 < 2 ^ 53 ->
  -1000 <= e1 + e2 <= 790 ->
  exists g m e,
    mul (S754_finite false m1 e1) (S754_finite false m2 e2)
      = S754_finite false m e /\
    rounds_to g
      ((inject_Z (Zpos m1) * pow2 e1) * (inject_Z (Zpos m2) * pow2 e2))
      (Zpos m) e /\
    e1 + e2 + 105 <= g <= e1 + e2 + 106.
Proof.
  intros H1 H2 He. unfold mul, SFmul. simpl xorb.
  assert (Hlo : 2 ^ 104 <= Zpos (m1 * m2)).
  { rewrite Pos2Z.inj_mul. change (2 ^ 104) with (2 ^ 52 * 2 ^ 52).
    apply Z.mul_le_mono_nonneg; lia. }
  assert (Hhi : Zpos (m1 * m2) < 2 ^ 106).
  { rewrite Pos2Z.inj_mul. change (2 ^ 106) with (2 ^ 53 * 2 ^ 53).
    apply Z.mul_lt_mono_nonneg; lia. }
  assert (Hd1 : 105 <= Zdigits2 (Zpos (m1 * m2))) by (apply Zdigits2_ge; exact Hlo).
  assert (Hd2 : Zdigits2 (Zpos (m1 * m2)) <= 106) by (apply Zdigits2_le; lia).
  destruct (binary_round_aux_spec (m1 * m2) (e1 + e2) loc_Exact 0
              ((inject_Z (Zpos m1) * pow2 e1) * (inject_Z (Zpos m2) * pow2 e2)))
    as (m & e & Hr & Hrt).
  - simpl. reflexivity.
  - rewrite Pos2Z.inj_mul, inject_Z_mult, pow2_add. ring.
  - lia.
  - lia.
  - exists (Zdigits2 (Zpos (m1 * m2)) + (e1 + e2)), m, e.
    split; [exact Hr|]. split; [exact Hrt|]. lia.
Qed.

Lemma inject_Z_pos (z : Z) : 0 < z -> (0 < inject_Z z)%Q.
Proof. intros H. change 0%Q with (inject_Z 0). now rewrite <- Zlt_Qlt. Qed.

Lemma new_location_spec (n r : Z) :
  0 <= r < n -> classify (new_location n r) (inject_Z r / inject_Z n).
Proof.
  intros Hr.
  assert (Hn : (0 < inject_Z n)%Q) by (apply inject_Z_pos; lia).
  assert (Hlt : forall a b : Z, a < b ->
            (inject_Z a < inject_Z b)%Q) by (intros; now rewrite <- Zlt_Qlt).
  assert (Hhalf_lt : 2 * r < n -> (inject_Z r / inject_Z n < 1 # 2)%Q).
  { intros H. apply Qlt_shift_div_r; [exact Hn|].
    apply Hlt in H. rewrite inject_Z_mult in H. change (inject_Z 2) with 2%Q in H.
    lra. }
  assert (Hhalf_gt : n < 2 * r -> (1 # 2 < inject_Z r / inject_Z n)%Q).
  { intros H. apply Qlt_shift_div_l; [exact Hn|].
    apply Hlt in H. rewrite inject_Z_mult in H. change (inject_Z 2) with 2%Q in H.
    lra. }
  assert (Hpos : 0 < r -> (0 < inject_Z r / inject_Z n)%Q).
  { intros H. apply Qlt_shift_div_l; [exact Hn|].
    apply inject_Z_pos in H. lra. }
  assert (Hone : (inject_Z r / inject_Z n < 1)%Q).
  { apply Qlt_shift_div_r; [exact Hn|].
    assert (r < n) as H by lia. apply Hlt in H. lra. }
  unfold new_location, new_location_even, new_location_odd.
  destruct (Z.even n) eqn:Hev; destruct (Z.eqb_spec r 0) as [->|Hr0].
  - simpl. unfold Qdiv. change (inject_Z 0) with 0%Q. ring.
  - destruct (Z.compare_spec (2 * r) n) as [E|L|G]; simpl.
    + rewrite <- E, inject_Z_mult. change (inject_Z 2) with 2%Q.
      assert (0 < inject_Z r)%Q by (apply inject_Z_pos; lia).
      field. lra.
    + split; [apply Hpos; lia | apply Hhalf_lt; lia].
    + split; [apply Hhalf_gt; lia | exact Hone].
  - simpl. unfold Qdiv. change (inject_Z 0) with 0%Q. ring.
  - assert (Hodd : 2 * r <> n).
    { intros <-. rewrite Z.even_mul in Hev. discriminate. }
    destruct (Z.compare_spec (2 * r + 1) n) as [E|L|G]; simpl.
    + split; [apply Hpos; lia | apply Hhalf_lt; lia].
    + split; [apply Hpos; lia | apply Hhalf_lt; lia].
    + split; [apply Hhalf_gt; lia | exact Hone].
Qed.

Lemma div_spec (m1 m2 : positive) (e1 e2 : Z) :
  2 ^ 52 <= Zpos m1 < 2 ^ 53 -> 2 ^ 52 <= Zpos m2 < 2 ^ 53 ->
  -400 <= e1 - e2 <= 400 ->
  exists g m e,
    div (S754_finite false m1 e1) (S754_finite false m2 e2)
      = S754_finite false m e /\
    rounds_to g
      ((inject_Z (Zpos m1) * pow2 e1) / (inject_Z (Zpos m2) * pow2 e2))
      (Zpos m) e /\
    e1 - e2 <= g <= e1 - e2 + 1.
Proof.
  intros H1 H2 He. unfold div, SFdiv, SFdiv_core_binary. simpl xorb.
  rewrite (Zdigits2_unique m1 53), (Zdigits2_unique m2 53) by (simpl Z.sub; lia).
  rewrite (fexp_normal (53 + e1 - (53 + e2))) by lia.
  replace (Z.min (53 + e1 - (53 + e2) - 53) (e1 - e2)) with (e1 - e2 - 53) by lia.
  replace (e1 - e2 - (e1 - e2 - 53)) with 53 by lia.
  cbv iota. rewrite Z.shiftl_mul_pow2 by lia.
  pose proof (Z_div_mod (Zpos m1 * 2 ^ 53) (Zpos m2) ltac:(lia)) as Hdm.
  destruct (Z.div_eucl (Zpos m1 * 2 ^ 53) (Zpos m2)) as [q r].
  destruct Hdm as [Hqr Hr].
  assert (Hqlo : 2 ^ 52 <= q).
  { assert (2 ^ 52 * 2 ^ 53 < Zpos m2 * (q + 1)) by nia.
    assert (Zpos m2 * (q + 1) <= 2 ^ 53 * (q + 1)) by nia.
    assert (2 ^ 52 < q + 1) by nia. lia. }
  assert (Hqhi : q < 2 ^ 54).
  { assert (Zpos m2 * q <= Zpos m1 * 2 ^ 53) by lia.
    assert (2 ^ 52 * q <= Zpos m2 * q) by nia.
    assert (Zpos m1 * 2 ^ 53 < 2 ^ 53 * 2 ^ 53) by nia.
    change (2 ^ 54) with (2 * 2 ^ 53). nia. }
  destruct q as [|q|q]; try lia.
  assert (Hd1 : 53 <= Zdigits2 (Zpos q)) by (apply Zdigits2_ge; exact Hqlo).
  assert (Hd2 : Zdigits2 (Zpos q) <= 54) by (apply Zdigits2_le; lia).
  assert (HM2 : (0 < inject_Z (Zpos m2))%Q) by (apply inject_Z_pos; lia).
  assert (HB : (0 < pow2 e2)%Q) by apply pow2_pos.
  destruct (binary_round_aux_spec q (e1 - e2 - 53) (new_location (Zpos m2) r)
              (inject_Z r / inject_Z (Zpos m2))
              ((inject_Z (Zpos m1) * pow2 e1) / (inject_Z (Zpos m2) * pow2 e2)))
    as (m & e & Hres & Hrt).
  - apply new_location_spec. exact Hr.
  - assert (HA : (pow2 e1 == pow2 (e1 - e2 - 53) * inject_Z (2 ^ 53) * pow2 e2)%Q).
    { rewrite <- (pow2_Z 53), <- !pow2_add by lia. now replace (e1 - e2 - 53 + 53 + e2) with e1 by lia. }
    assert (HR : (inject_Z r == inject_Z (Zpos m1) * inject_Z (2 ^ 53)
                               - inject_Z (Zpos m2) * inject_Z (Zpos q))%Q).
    { rewrite <- !inject_Z_mult. unfold Qminus.
      rewrite <- inject_Z_opp, <- inject_Z_plus. apply inject_Z_injective. lia. }
    rewrite HA, HR. field. split; lra.
  - exact Hd1.
  - lia.
  - exists (Zdigits2 (Zpos q) + (e1 - e2 - 53)), m, e.
    split; [exact Hres|]. split; [exact Hrt|]. lia.
Qed.

Lemma rounded_monotone f x lo hi f' x' lo' hi' :
  rounded f x lo hi -> rounded f' x' lo' hi' -> (x <= x')%Q ->
  (F2Q f <= F2Q f')%Q.
Proof.
  intros (g & m & e & -> & Hr & _) (g' & m' & e' & -> & Hr' & _) Hxx.
  simpl. eapply rounds_to_monotone; eassumption.
Qed.

Lemma rounded_pos f x lo hi : rounded f x lo hi -> (0 < F2Q f)%Q.
Proof.
  intros (g & m & e & -> & Hr & _). simpl.
  apply Qmult_lt_0_compat; [apply inject_Z_pos; lia | apply pow2_pos].
Qed.

Lemma Math_floor_finite (m : positive) (e : Z) :
  Math_floor (S754_finite false m e) = Int (Qfloor (F2Q (S754_finite false m e))).
Proof.
  unfold Math_floor, F2Q. f_equal.
  destruct (Z.leb_spec 0 e) as [He|He].
  - rewrite Z.shiftl_mul_pow2 by lia.
    rewrite <- (Qfloor_Z (Zpos m * 2 ^ e)). apply Qfloor_comp.
    rewrite inject_Z_mult, pow2_Z by lia. reflexivity.
  - rewrite Z.shiftr_div_pow2 by lia. rewrite Zdiv_Qdiv. apply Qfloor_comp.
    rewrite <- (pow2_Z (- e)) by lia. unfold pow2. rewrite Qpower_opp.
    unfold Qdiv. rewrite Qinv_involutive. reflexivity.
Qed.

Lemma Math_floor_rounded f x lo hi :
  rounded f x lo hi -> Math_floor f = Int (Qfloor (F2Q f)).
Proof. intros (g & m & e & -> & _). apply Math_floor_finite. Qed.

Lemma of_Z_rounded (k : Z) :
  0 < k <= 2 ^ 53 -> rounded (of_Z k) (inject_Z k) 1 54.
Proof.
  intros Hk. destruct (of_Z_spec k Hk) as (m & e & Hf & Hr).
  exists (Zdigits2 k), m, e. split; [exact Hf|]. split; [exact Hr|].
  destruct k as [|p|p]; try lia.
  split; [unfold Zdigits2; lia | apply Zdigits2_le; lia].
Qed.

Lemma rounded_weaken f x lo hi lo' hi' :
  rounded f x lo hi -> lo' <= lo -> hi <= hi' -> rounded f x lo' hi'.
Proof.
  intros (g & m & e & Hf & Hr & Hg) Hlo Hhi. exists g, m, e.
  split; [exact Hf|]. split; [exact Hr|]. lia.
Qed.

Lemma of_Z_rounded' (k : Z) :
  0 < k <= 2 ^ 53 -> rounded (of_Z k) (inject_Z k) (-100) 100.
Proof.
  intros Hk. apply (rounded_weaken _ _ 1 54); [now apply of_Z_rounded | lia | lia].
Qed.

Lemma div_rounded a xa b xb :
  rounded a xa (-100) 100 -> rounded b xb (-100) 100 ->
  rounded (div a b) (F2Q a / F2Q b) (-400) 400.
Proof.
  intros (g1 & m1 & e1 & -> & (_ & Hm1 & He1 & _) & Hg1)
         (g2 & m2 & e2 & -> & (_ & Hm2 & He2 & _) & Hg2).
  destruct (div_spec m1 m2 e1 e2 Hm1 Hm2 ltac:(lia)) as (g & m & e & Hf & Hr & Hg).
  exists g, m, e. split; [exact Hf|]. split; [exact Hr|]. lia.
Qed.

Lemma mul_rounded a xa b xb :
  rounded a xa (-100) 100 -> rounded b xb (-400) 400 ->
  rounded (mul a b) (F2Q a * F2Q b) (-900) 900.
Proof.
  intros (g1 & m1 & e1 & -> & (_ & Hm1 & He1 & _) & Hg1)
         (g2 & m2 & e2 & -> & (_ & Hm2 & He2 & _) & Hg2).
  destruct (mul_spec m1 m2 e1 e2 Hm1 Hm2 ltac:(lia)) as (g & m & e & Hf & Hr & Hg).
  exists g, m, e. split; [exact Hf|]. split; [exact Hr|]. lia.
Qed.

(** ** The count of visible characters

    [visible L k t] is [Math.floor(L * (k / t))] as the script computes
    it. *)
Abbreviation visible L k t :=
  (Math_floor (mul (of_Z L) (div (of_Z k) (of_Z t)))).

Lemma visible_zero_count (L t : Z) :
  0 <= L <= 2 ^ 53 -> 0 < t <= 2 ^ 53 -> visible L 0 t = Int 0.
Proof.
  intros HL Ht.
  destruct (of_Z_rounded t Ht) as (g & m & e & -> & _).
  change (of_Z 0) with (S754_zero false).
  destruct (Z.eq_dec L 0) as [->|HL0]; [reflexivity|].
  destruct (of_Z_rounded L ltac:(lia)) as (g' & m' & e' & -> & _).
  reflexivity.
Qed.

Lemma visible_zero_text (k t : Z) :
  0 < k <= 2 ^ 53 -> 0 < t <= 2 ^ 53 -> visible 0 k t = Int 0.
Proof.
  intros Hk Ht.
  destruct (div_rounded _ _ _ _ (of_Z_rounded' k Hk) (of_Z_rounded' t Ht))
    as (g & m & e & -> & _).
  reflexivity.
Qed.

Lemma product_rounded (L k t : Z) :
  0 < L <= 2 ^ 53 -> 0 < k <= 2 ^ 53 -> 0 < t <= 2 ^ 53 ->
  rounded (mul (of_Z L) (div (of_Z k) (of_Z t)))
          (F2Q (of_Z L) * F2Q (div (of_Z k) (of_Z t))) (-900) 900.
Proof.
  intros HL Hk Ht.
  eapply mul_rounded; [now apply of_Z_rounded'|].
  eapply div_rounded; now apply of_Z_rounded'.
Qed.

Lemma visible_Int (L k t : Z) :
  0 <= L <= 2 ^ 53 -> 0 <= k <= 2 ^ 53 -> 0 < t <= 2 ^ 53 ->
  exists v, visible L k t = Int v /\ 0 <= v.
Proof.
  intros HL Hk Ht.
  destruct (Z.eq_dec k 0) as [->|Hk0].
  { exists 0. split; [now apply visible_zero_count | lia]. }
  destruct (Z.eq_dec L 0) as [->|HL0].
  { exists 0. split; [apply visible_zero_text; lia | lia]. }
  pose proof (product_rounded L k t ltac:(lia) ltac:(lia) Ht) as Hr.
  rewrite (Math_floor_rounded _ _ _ _ Hr).
  eexists. split; [reflexivity|].
  change 0 with (Qfloor 0). apply Qfloor_resp_le.
  apply Qlt_le_weak. eapply rounded_pos. exact Hr.
Qed.

Lemma visible_monotone (L k k' t v v' : Z) :
  0 <= L <= 2 ^ 53 -> 0 <= k <= k' -> k' <= 2 ^ 53 -> 0 < t <= 2 ^ 53 ->
  visible L k t = Int v -> visible L k' t = Int v' -> v <= v'.
Proof.
  intros HL Hk Hk' Ht Hv Hv'.
  destruct (Z.eq_dec k 0) as [->|Hk0].
  { rewrite visible_zero_count in Hv by assumption. injection Hv as <-.
    destruct (visible_Int L k' t HL ltac:(lia) Ht) as (w & Hw & Hw0).
    rewrite Hw in Hv'. injection Hv' as <-. exact Hw0. }
  destruct (Z.eq_dec L 0) as [->|HL0].
  { rewrite visible_zero_text in Hv, Hv' by lia.
    injection Hv as <-. injection Hv' as <-. lia. }
  pose proof (product_rounded L k t ltac:(lia) ltac:(lia) Ht) as Hr.
  pose proof (product_rounded L k' t ltac:(lia) ltac:(lia) Ht) as Hr'.
    rewrite (Math_floor_rounded _ _ _ _ Hr) in Hv.
  rewrite (Math_floor_rounded _ _ _ _ Hr') in Hv'.
  injection Hv as <-. injection Hv' as <-.
  apply Qfloor_resp_le.
  apply (rounded_monotone _ _ _ _ _ _ _ _ Hr Hr').
  pose proof (of_Z_rounded' L ltac:(lia)) as HrL.
  pose proof (of_Z_rounded' k ltac:(lia)) as Hrk.
  pose proof (of_Z_rounded' k' ltac:(lia)) as Hrk'.
  pose proof (of_Z_rounded' t Ht) as Hrt.
  pose proof (rounded_pos _ _ _ _ HrL) as HLpos.
  pose proof (rounded_pos _ _ _ _ Hrt) as Htpos.
  apply Qmult_le_l; [exact HLpos|].
  apply (rounded_monotone _ _ _ _ _ _ _ _
           (div_rounded _ _ _ _ Hrk Hrt) (div_rounded _ _ _ _ Hrk' Hrt)).
  apply Qmult_le_compat_r.
  - apply (rounded_monotone _ _ _ _ _ _ _ _ Hrk Hrk').
    rewrite <- Zle_Qle. lia.
  - apply Qlt_le_weak, Qinv_lt_0_compat, Htpos.
Qed.

(** Counters are represented exactly. *)
Lemma F2Q_of_Z (k : Z) :
  0 < k <= 2 ^ 53 -> (F2Q (of_Z k) == inject_Z k)%Q.
Proof.
  intros Hk. destruct (Z.eq_dec k (2 ^ 53)) as [->|Hne].
  - vm_compute. reflexivity.
  - destruct (of_Z_spec k Hk) as (m & e & -> & Hr).
    apply (rounds_to_exact _ _ _ _ Hr). lia.
Qed.

Lemma one_rounded : rounded (S754_finite false 4503599627370496 (-52)) 1 1 1.
Proof.
  exists 1, 4503599627370496%positive, (-52). split; [reflexivity|].
  split; [|lia]. split; [split|split; [lia|split; [left; lia|]]].
  - vm_compute. discriminate.
  - vm_compute. reflexivity.
  - vm_compute. reflexivity.
Qed.

(** The count never exceeds the length of the text. *)
Lemma visible_upper (L k t v : Z) :
  0 <= L <= 2 ^ 53 -> 0 <= k <= t -> 0 < t <= 2 ^ 53 ->
  visible L k t = Int v -> v <= L.
Proof.
  intros HL Hk Ht Hv.
  destruct (Z.eq_dec k 0) as [->|Hk0].
  { rewrite visible_zero_count in Hv by assumption. injection Hv as <-. lia. }
  destruct (Z.eq_dec L 0) as [->|HL0].
  { rewrite visible_zero_text in Hv by lia. injection Hv as <-. lia. }
  pose proof (product_rounded L k t ltac:(lia) ltac:(lia) Ht) as Hr.
  pose proof (of_Z_rounded' L ltac:(lia)) as HrL.
  pose proof (of_Z_rounded' k ltac:(lia)) as Hrk.
  pose proof (of_Z_rounded' t Ht) as Hrt.
  pose proof (rounded_pos _ _ _ _ HrL) as HLpos.
  pose proof (rounded_pos _ _ _ _ Hrt) as Htpos.
  pose proof (F2Q_of_Z L ltac:(lia)) as HLex.
  rewrite (Math_floor_rounded _ _ _ _ Hr) in Hv. injection Hv as <-.
  apply Z.le_trans with (Qfloor (inject_Z L)); [|rewrite Qfloor_Z; lia].
  apply Qfloor_resp_le. rewrite <- HLex.
  apply (rounded_monotone _ _ _ _ _ _ _ _ Hr HrL).
  assert (Hp : (F2Q (div (of_Z k) (of_Z t)) <= 1)%Q).
  { assert (Hone : (F2Q (S754_finite false 4503599627370496 (-52)) == 1)%Q)
      by (vm_compute; reflexivity).
    rewrite <- Hone.
    apply (rounded_monotone _ _ _ _ _ _ _ _
             (div_rounded _ _ _ _ Hrk Hrt) one_rounded).
    apply Qle_shift_div_r; [exact Htpos|]. rewrite Qmult_1_l.
    apply (rounded_monotone _ _ _ _ _ _ _ _ Hrk Hrt).
    rewrite <- Zle_Qle. lia. }
  apply Qle_trans with (F2Q (of_Z L) * 1)%Q.
  - apply Qmult_le_l; assumption.
  - rewrite Qmult_1_r, HLex. apply Qle_refl.
Qed.

(* ===================================================================== *)
(** ** The regimes of the frame loop *)
(* ===================================================================== *)

Lemma regime_Typing (i totalFrames bufferFrames : Z) :
  regime i totalFrames bufferFrames = Typing <->
  bufferFrames <= i < totalFrames - bufferFrames.
Proof.
  unfold regime.
  destruct (Z.leb_spec bufferFrames i), (Z.ltb_spec i (totalFrames - bufferFrames));
    simpl; try (split; [intros _; lia | reflexivity]);
    destruct (Z.leb_spec (totalFrames - bufferFrames) i);
    split; try discriminate; lia.
Qed.

(** The quotient of a frame is only computed with a positive divisor. *)
Lemma regime_Typing_divisor (i totalFrames bufferFrames : Z) :
  regime i totalFrames bufferFrames = Typing ->
  0 < typingFrames totalFrames bufferFrames.
Proof. rewrite regime_Typing. unfold typingFrames. lia. Qed.

Lemma regime_no_typing (i totalFrames bufferFrames : Z) :
  typingFrames totalFrames bufferFrames <= 0 ->
  regime i totalFrames bufferFrames =
  if totalFrames - bufferFrames <=? i then TrailingHold else LeadingHold.
Proof.
  unfold typingFrames, regime. intros Ht.
  destruct (Z.leb_spec bufferFrames i), (Z.ltb_spec i (totalFrames - bufferFrames));
    simpl; try reflexivity; lia.
Qed.

(** In the typing regime the count of visible characters is an integer
    between 0 and the length of the text. *)
Lemma visibleChars_Int (i totalFrames bufferFrames : Z) (text : string) :
  bufferFrames <= i < totalFrames - bufferFrames ->
  typingFrames totalFrames bufferFrames <= 2 ^ 53 ->
  Str.len text <= 2 ^ 53 ->
  exists v, visibleChars i totalFrames bufferFrames text = Int v /\
            0 <= v <= Str.len text.
Proof.
  intros Hi Ht HL. unfold visibleChars, progress.
  unfold typingFrames in *. pose proof (len_nonneg text) as HL0.
  destruct (visible_Int (Str.len text) (i - bufferFrames)
              (totalFrames - 2 * bufferFrames)) as (v & Hv & Hv0); try lia.
  exists v. split; [exact Hv|]. split; [exact Hv0|].
  apply (visible_upper (Str.len text) (i - bufferFrames)
           (totalFrames - 2 * bufferFrames)); try lia. exact Hv.
Qed.

(* ===================================================================== *)
(** ** The claims of the specification *)
(* ===================================================================== *)

(** C1, as stated, fails: with the default three seconds (90 frames, no
    buffer) and a text of 45 characters, frame 26 shows
    [Math.floor(45 * (26 / 90))], which is 12 because the quotient and
    the product are rounded to binary64 (the product is
    12.999999999999998), while floor(45 * 26 / 90) is 13. *)
Lemma visible_count_below_exact_floor :
  regime 26 90 0 = Typing /\
  Str.len pangram = 45 /\
  visibleChars 26 90 0 pangram = Int 12 /\
  Str.len pangram * (26 - 0) / typingFrames 90 0 = 13.
Proof. repeat split; vm_compute; reflexivity. Qed.

(** C1, amended.  In the typing regime the count of visible characters
    is [Math.floor(len * progress)] with [progress = (i - bufferFrames)
    / typingFrames], quotient and product both in binary64 arithmetic;
    it is an integer [v] with [0 <= v <= len].  The lines shown are the
    first [k] lines whole, [k] being as large as the count allows
    (their characters number at most [v]); if a line is left, the
    count falls short of it and it is shown cut to its first
    [v - charCount] characters, nothing after it being shown. *)
Theorem typing_regime_display (i totalFrames bufferFrames : Z) (text : string)
    (lines : list string) :
  bufferFrames <= i < totalFrames - bufferFrames ->
  typingFrames totalFrames bufferFrames <= 2 ^ 53 ->
  Str.len text <= 2 ^ 53 ->
  exists v : Z,
    visibleChars i totalFrames bufferFrames text = Int v /\
    Math_floor (mul (of_Z (Str.len text))
                    (div (of_Z (i - bufferFrames))
                         (of_Z (totalFrames - 2 * bufferFrames)))) = Int v /\
    0 <= v <= Str.len text /\
    exists k : nat,
      (k <= List.length lines)%nat /\
      charCount (firstn k lines) <= v /\
      (k = List.length lines ->
       displayLines i totalFrames bufferFrames text lines = lines) /\
      (forall line, nth_error lines k = Some line ->
         v < charCount (firstn k lines) + Str.len line /\
         displayLines i totalFrames bufferFrames text lines =
           firstn k lines ++
           [Str.take (Z.to_nat (v - charCount (firstn k lines))) line] /\
         Str.len (Str.take (Z.to_nat (v - charCount (firstn k lines))) line)
           = v - charCount (firstn k lines)).
Proof.
  intros Hi Ht HL.
  destruct (visibleChars_Int i totalFrames bufferFrames text Hi Ht HL)
    as (v & Hv & Hv0).
  exists v. split; [exact Hv|]. split; [exact Hv|]. split; [exact Hv0|].
  destruct (typeLines_walk lines v 0 ltac:(lia)) as (k & Hk & Hsum & Hall & Hcut).
  exists k. split; [exact Hk|]. split; [lia|].
  unfold displayLines.
  rewrite (proj2 (regime_Typing i totalFrames bufferFrames) Hi), Hv.
  split; [exact Hall|].
  intros line Hline. destruct (Hcut line Hline) as [Hlt Heq].
  rewrite Z.add_0_l in Hlt, Heq. split; [exact Hlt|]. split; [exact Heq|].
  unfold Str.len at 1. rewrite take_length.
  - pose proof (charCount_nonneg (firstn k lines)). lia.
  - unfold Str.len in Hlt. lia.
Qed.

(** The theorem at frame 4 of the ten frames of "AB CD". *)
Lemma typing_regime_display_witness :
  (0 <= 4 < 10 - 0 /\ typingFrames 10 0 <= 2 ^ 53 /\
   Str.len "AB CD" <= 2 ^ 53) /\
  exists v : Z,
    visibleChars 4 10 0 "AB CD" = Int v /\
    Math_floor (mul (of_Z (Str.len "AB CD"))
                    (div (of_Z (4 - 0)) (of_Z (10 - 2 * 0)))) = Int v /\
    0 <= v <= Str.len "AB CD" /\
    exists k : nat,
      (k <= List.length ["AB CD"])%nat /\
      charCount (firstn k ["AB CD"]) <= v /\
      (k = List.length ["AB CD"] ->
       displayLines 4 10 0 "AB CD" ["AB CD"] = ["AB CD"]) /\
      (forall line, nth_error ["AB CD"] k = Some line ->
         v < charCount (firstn k ["AB CD"]) + Str.len line /\
         displayLines 4 10 0 "AB CD" ["AB CD"] =
           firstn k ["AB CD"] ++
           [Str.take (Z.to_nat (v - charCount (firstn k ["AB CD"]))) line] /\
         Str.len (Str.take (Z.to_nat (v - charCount (firstn k ["AB CD"]))) line)
           = v - charCount (firstn k ["AB CD"])).
Proof.
  assert (H : 0 <= 4 < 10 - 0 /\ typingFrames 10 0 <= 2 ^ 53 /\
              Str.len "AB CD" <= 2 ^ 53).
  { vm_compute. repeat split; discriminate. }
  split; [exact H|].
  destruct H as (H1 & H2 & H3).
  exact (typing_regime_display 4 10 0 "AB CD" ["AB CD"] H1 H2 H3).
Defined.

(** C4.  From one frame of the typing regime to the next the count of
    visible characters does not decrease (frame counts and the length
    of the text being below 2^53, as counters are). *)
Theorem visibleChars_nondecreasing (i totalFrames bufferFrames : Z)
    (text : string) :
  bufferFrames <= i ->
  i + 1 < totalFrames - bufferFrames ->
  typingFrames totalFrames bufferFrames <= 2 ^ 53 ->
  Str.len text <= 2 ^ 53 ->
  exists v v' : Z,
    visibleChars i totalFrames bufferFrames text = Int v /\
    visibleChars (i + 1) totalFrames bufferFrames text = Int v' /\
    v <= v'.
Proof.
  intros Hi Hi' Ht HL.
  destruct (visibleChars_Int i totalFrames bufferFrames text
              ltac:(lia) Ht HL) as (v & Hv & _).
  destruct (visibleChars_Int (i + 1) totalFrames bufferFrames text
              ltac:(lia) Ht HL) as (v' & Hv' & _).
  exists v, v'. split; [exact Hv|]. split; [exact Hv'|].
  pose proof (len_nonneg text) as HL0.
  unfold visibleChars, progress, typingFrames in *.
  apply (visible_monotone (Str.len text) (i - bufferFrames)
           (i + 1 - bufferFrames) (totalFrames - 2 * bufferFrames));
    try assumption; lia.
Qed.

(** The theorem at frames 26 and 27 of the 90 frames of [pangram]. *)
Lemma visibleChars_nondecreasing_witness :
  (0 <= 26 /\ 26 + 1 < 90 - 0 /\ typingFrames 90 0 <= 2 ^ 53 /\
   Str.len pangram <= 2 ^ 53) /\
  exists v v' : Z,
    visibleChars 26 90 0 pangram = Int v /\
    visibleChars (26 + 1) 90 0 pangram = Int v' /\
    v <= v'.
Proof.
  assert (H : 0 <= 26 /\ 26 + 1 < 90 - 0 /\ typingFrames 90 0 <= 2 ^ 53 /\
              Str.len pangram <= 2 ^ 53).
  { vm_compute. repeat split; discriminate. }
  split; [exact H|].
  destruct H as (H1 & H2 & H3 & H4).
  exact (visibleChars_nondecreasing 26 90 0 pangram H1 H2 H3 H4).
Defined.

(** C6 (scenario A).  With the text "AB CD" on one line, 10 frames and
    no buffer: frame 0 is in the typing regime with progress 0, no
    visible character, and what is shown holds no character (one empty
    line); frame 4 has progress 0.4 (the binary64 value of 4/10, which
    is the one written 0.4), 2 visible characters, and shows the single
    line "AB". *)
Theorem scenario_A :
  regime 0 10 0 = Typing /\
  progress 0 10 0 = S754_zero false /\
  visibleChars 0 10 0 "AB CD" = Int 0 /\
  displayLines 0 10 0 "AB CD" ["AB CD"] = [""] /\
  String.concat "" (displayLines 0 10 0 "AB CD" ["AB CD"]) = "" /\
  regime 4 10 0 = Typing /\
  progress 4 10 0 = S754_finite false 7205759403792794 (-54) /\
  (F2Q (progress 4 10 0) == 7205759403792794 # 18014398509481984)%Q /\
  visibleChars 4 10 0 "AB CD" = Int 2 /\
  displayLines 4 10 0 "AB CD" ["AB CD"] = ["AB"].
Proof. repeat split; vm_compute; reflexivity. Qed.

(** C7, as stated, fails: with 30 frames of which the buffer takes 15
    at each end, the typing frames number 0 and frame 0 shows nothing
    rather than the whole text. *)
Lemma buffer_consumes_duration_leading_frames_empty :
  typingFrames 30 15 = 0 /\
  displayLines 0 30 15 "AB" ["AB"] = [] /\
  displayLines 0 30 15 "AB" ["AB"] <> ["AB"].
Proof. repeat split; try (vm_compute; reflexivity). discriminate. Qed.

(** C7, amended.  When [typingFrames <= 0] no frame takes the typing
    branch, so the quotient by [typingFrames] is never computed; a
    frame from [totalFrames - bufferFrames] on shows every line, and
    an earlier frame shows nothing. *)
Theorem buffer_consumes_duration (i totalFrames bufferFrames : Z)
    (text : string) (lines : list string) :
  typingFrames totalFrames bufferFrames <= 0 ->
  regime i totalFrames bufferFrames <> Typing /\
  displayLines i totalFrames bufferFrames text lines =
    if totalFrames - bufferFrames <=? i then lines else [].
Proof.
  intros Ht. unfold displayLines.
  rewrite (regime_no_typing i totalFrames bufferFrames Ht).
  destruct (totalFrames - bufferFrames <=? i); split;
    try discriminate; reflexivity.
Qed.

(** The theorem at frame 20 of 30 frames with a buffer of 15. *)
Lemma buffer_consumes_duration_witness :
  typingFrames 30 15 <= 0 /\
  regime 20 30 15 <> Typing /\
  displayLines 20 30 15 "AB" ["AB"] = if 30 - 15 <=? 20 then ["AB"] else [].
Proof.
  assert (H : typingFrames 30 15 <= 0) by (vm_compute; discriminate).
  split; [exact H|].
  exact (buffer_consumes_duration 20 30 15 "AB" ["AB"] H).
Defined.

(** C10, as stated, fails: a text that starts with a space before a
    word too wide for the box is laid out with an empty first line;
    at frame 0, with no visible character, the empty line is shown
    whole and the next line cut to nothing, two elements. *)
Lemma empty_first_line_shown_with_the_cut :
  lines (snd (optimizeLayout monospace {| font := 10 |}
                (" " ++ longWord) boxWidth boxHeight 12 100))
    = [""; longWord] /\
  regime 0 90 0 = Typing /\
  visibleChars 0 90 0 (" " ++ longWord) = Int 0 /\
  displayLines 0 90 0 (" " ++ longWord) [""; longWord] = [""; ""].
Proof. repeat split; vm_compute; reflexivity. Qed.

(** C10, amended.  At every frame what is shown is no longer than the
    layout's lines, agrees with them at every position but the last,
    and ends with a prefix of the line at that position.  In the
    typing regime it is never empty; when the count of visible
    characters is 0 every element is the empty string, and there is
    exactly one element when the first line of the layout is not
    empty. *)
Theorem displayLines_prefix_structured (i totalFrames bufferFrames : Z)
    (text : string) (lines : list string) :
  lines <> [] ->
  (List.length (displayLines i totalFrames bufferFrames text lines)
     <= List.length lines)%nat /\
  (forall j,
     (S j < List.length (displayLines i totalFrames bufferFrames text lines))%nat ->
     nth_error (displayLines i totalFrames bufferFrames text lines) j
       = nth_error lines j) /\
  (forall p,
     nth_error (displayLines i totalFrames bufferFrames text lines)
       (List.length (displayLines i totalFrames bufferFrames text lines) - 1)
       = Some p ->
     exists line,
       nth_error lines
         (List.length (displayLines i totalFrames bufferFrames text lines) - 1)
         = Some line /\
       Str.is_prefix p line) /\
  (regime i totalFrames bufferFrames = Typing ->
     displayLines i totalFrames bufferFrames text lines <> [] /\
     (visibleChars i totalFrames bufferFrames text = Int 0 ->
        (forall l, In l (displayLines i totalFrames bufferFrames text lines) ->
                   l = "") /\
        (hd "" lines <> "" ->
         displayLines i totalFrames bufferFrames text lines = [""]))).
Proof.
  intros Hne.
  assert (Hshape : PrefixOfLines
                     (displayLines i totalFrames bufferFrames text lines) lines).
  { unfold displayLines. destruct (regime i totalFrames bufferFrames).
    - constructor.
    - apply typeLines_PrefixOfLines.
    - apply PrefixOfLines_refl. }
  split; [now apply PrefixOfLines_length|].
  split; [now apply PrefixOfLines_whole|].
  split; [now apply PrefixOfLines_last|].
  intros Hreg. unfold displayLines. rewrite Hreg.
  split; [now apply typeLines_not_nil|].
  intros ->. split; [apply typeLines_zero_empty|].
  destruct lines as [|line rest]; [contradiction|]. simpl hd. intros Hline.
  rewrite typeLines_cons, Z.add_0_l. unfold le_integral.
  pose proof (len_nonneg line) as Hlen.
  destruct (Z.leb_spec (Str.len line) 0) as [Hz|Hpos].
  - exfalso. apply Hline, len_zero. lia.
  - simpl sub_integral. rewrite slice0_Int by lia. now destruct line.
Qed.

(** The theorem at frame 0 of the ten frames of "AB CD". *)
Lemma displayLines_prefix_structured_witness :
  ["AB CD"] <> [] /\
  (List.length (displayLines 0 10 0 "AB CD" ["AB CD"])
     <= List.length ["AB CD"])%nat /\
  (forall j,
     (S j < List.length (displayLines 0 10 0 "AB CD" ["AB CD"]))%nat ->
     nth_error (displayLines 0 10 0 "AB CD" ["AB CD"]) j
       = nth_error ["AB CD"] j) /\
  (forall p,
     nth_error (displayLines 0 10 0 "AB CD" ["AB CD"])
       (List.length (displayLines 0 10 0 "AB CD" ["AB CD"]) - 1)
       = Some p ->
     exists line,
       nth_error ["AB CD"]
         (List.length (displayLines 0 10 0 "AB CD" ["AB CD"]) - 1)
         = Some line /\
       Str.is_prefix p line) /\
  (regime 0 10 0 = Typing ->
     displayLines 0 10 0 "AB CD" ["AB CD"] <> [] /\
     (visibleChars 0 10 0 "AB CD" = Int 0 ->
        (forall l, In l (displayLines 0 10 0 "AB CD" ["AB CD"]) -> l = "") /\
        (hd "" ["AB CD"] <> "" ->
         displayLines 0 10 0 "AB CD" ["AB CD"] = [""]))).
Proof.
  assert (H : ["AB CD"] <> []) by discriminate.
  split; [exact H|].
  exact (displayLines_prefix_structured 0 10 0 "AB CD" ["AB CD"] H).
Defined.

(** The layout that [optimizeLayout] returns. *)
Abbreviation chosen measureText ctx text maxWidth maxHeight lo hi :=
  (snd (optimizeLayout measureText ctx text maxWidth maxHeight lo hi)).

(** What [optimizeLayout] returns, by cases on its loop. *)
Lemma optimizeLayout_cases (measureText : Context -> string -> number)
    (ctx : Context) (text : string) (maxWidth maxHeight : number)
    (minFontSize maxFontSize : Z) :
  (exists size,
     chosen measureText ctx text maxWidth maxHeight minFontSize maxFontSize
       = layoutAt measureText text maxWidth size /\
     minFontSize <= size <= maxFontSize /\
     fits measureText text maxWidth maxHeight size = true /\
     forall s, size < s <= maxFontSize ->
               fits measureText text maxWidth maxHeight s = false)
  \/
  (chosen measureText ctx text maxWidth maxHeight minFontSize maxFontSize
     = layoutAt measureText text maxWidth minFontSize /\
   forall s, minFontSize <= s <= maxFontSize ->
             fits measureText text maxWidth maxHeight s = false).
Proof.
  unfold optimizeLayout.
  pose proof (optimizeLayout_loop_spec measureText text maxWidth maxHeight
                minFontSize maxFontSize) as Hloop.
  destruct (optimizeLayout_loop measureText text maxWidth maxHeight
              minFontSize maxFontSize) as [l|].
  - left. destruct Hloop as (size & -> & Hrest). exists size. auto.
  - right. auto.
Qed.

(** The chosen layout has at least one line. *)
Lemma chosen_lines_not_nil (measureText : Context -> string -> number)
    (ctx : Context) (text : string) (maxWidth maxHeight : number)
    (minFontSize maxFontSize : Z) :
  lines (chosen measureText ctx text maxWidth maxHeight minFontSize maxFontSize)
    <> [].
Proof.
  destruct (optimizeLayout_cases measureText ctx text maxWidth maxHeight
              minFontSize maxFontSize)
    as [(size & -> & _)|[-> _]]; apply wrapText_not_nil.
Qed.

(** C2.  Whatever the text and the width, the lines that [wrapText]
    returns, joined with single spaces, are the text again; the text
    itself is a value that [wrapText] only reads.  (Neither a non-empty
    text nor a width that holds the widest word is needed.) *)
Theorem wrapText_join (measureText : Context -> string -> number)
    (ctx : Context) (text : string) (maxWidth : number) :
  Str.join (wrapText measureText ctx text maxWidth) = text.
Proof.
  unfold wrapText. pose proof (join_split text) as Hjs.
  destruct (Str.split text) as [|first rest].
  - exact Hjs.
  - rewrite wrapText_loop_join. exact Hjs.
Qed.

(** C3.  For [minFontSize <= maxFontSize], the layout returned has its
    lines wrapped and its line height computed at its own font size,
    and either that size is the largest one of the range, counting down
    by 1 from [maxFontSize], whose lines fit the height, or no size of
    the range fits and the size is [minFontSize]. *)
Theorem optimizeLayout_largest_fit (measureText : Context -> string -> number)
    (ctx : Context) (text : string) (maxWidth maxHeight : number)
    (minFontSize maxFontSize : Z) :
  minFontSize <= maxFontSize ->
  lines (chosen measureText ctx text maxWidth maxHeight minFontSize maxFontSize)
    = wrapText measureText
        {| font := fontSize (chosen measureText ctx text maxWidth maxHeight
                               minFontSize maxFontSize) |}
        text maxWidth /\
  lineHeight (chosen measureText ctx text maxWidth maxHeight minFontSize maxFontSize)
    = mul (of_Z (fontSize (chosen measureText ctx text maxWidth maxHeight
                             minFontSize maxFontSize))) lit_1_2 /\
  ((minFontSize
      <= fontSize (chosen measureText ctx text maxWidth maxHeight
                     minFontSize maxFontSize)
      <= maxFontSize /\
    leb (mul (of_Z (Z.of_nat (List.length
                (lines (chosen measureText ctx text maxWidth maxHeight
                          minFontSize maxFontSize)))))
             (lineHeight (chosen measureText ctx text maxWidth maxHeight
                            minFontSize maxFontSize)))
        maxHeight = true /\
    (forall s,
       fontSize (chosen measureText ctx text maxWidth maxHeight
                   minFontSize maxFontSize) < s <= maxFontSize ->
       fits measureText text maxWidth maxHeight s = false))
   \/
   (fontSize (chosen measureText ctx text maxWidth maxHeight
                minFontSize maxFontSize) = minFontSize /\
    (forall s, minFontSize <= s <= maxFontSize ->
               fits measureText text maxWidth maxHeight s = false))).
Proof.
  intros Hrange.
  destruct (optimizeLayout_cases measureText ctx text maxWidth maxHeight
              minFontSize maxFontSize)
    as [(size & -> & Hsize & Hfit & Hmax)|[-> Hnone]].
  - split; [reflexivity|]. split; [reflexivity|]. left.
    split; [exact Hsize|]. split; [exact Hfit | exact Hmax].
  - split; [reflexivity|]. split; [reflexivity|]. right.
    split; [reflexivity | exact Hnone].
Qed.

(** The theorem for [pangram] in the default box, sizes 12 to 100. *)
Lemma optimizeLayout_largest_fit_witness :
  12 <= 100 /\
  lines (chosen monospace {| font := 10 |} pangram boxWidth boxHeight 12 100)
    = wrapText monospace
        {| font := fontSize (chosen monospace {| font := 10 |} pangram
                               boxWidth boxHeight 12 100) |}
        pangram boxWidth /\
  lineHeight (chosen monospace {| font := 10 |} pangram boxWidth boxHeight 12 100)
    = mul (of_Z (fontSize (chosen monospace {| font := 10 |} pangram
                             boxWidth boxHeight 12 100))) lit_1_2 /\
  ((12 <= fontSize (chosen monospace {| font := 10 |} pangram
                      boxWidth boxHeight 12 100) <= 100 /\
    leb (mul (of_Z (Z.of_nat (List.length
                (lines (chosen monospace {| font := 10 |} pangram
                          boxWidth boxHeight 12 100)))))
             (lineHeight (chosen monospace {| font := 10 |} pangram
                            boxWidth boxHeight 12 100)))
        boxHeight = true /\
    (forall s,
       fontSize (chosen monospace {| font := 10 |} pangram
                   boxWidth boxHeight 12 100) < s <= 100 ->
       fits monospace pangram boxWidth boxHeight s = false))
   \/
   (fontSize (chosen monospace {| font := 10 |} pangram
                boxWidth boxHeight 12 100) = 12 /\
    (forall s, 12 <= s <= 100 ->
               fits monospace pangram boxWidth boxHeight s = false))).
Proof.
  assert (H : 12 <= 100) by lia.
  split; [exact H|].
  exact (optimizeLayout_largest_fit monospace {| font := 10 |} pangram
           boxWidth boxHeight 12 100 H).
Defined.

(** C8.  For [minFontSize <= maxFontSize] and two height bounds with
    [maxHeight1 >= maxHeight2], the font size chosen for [maxHeight2]
    is at most the one chosen for [maxHeight1], and both sizes lie
    between [minFontSize] and [maxFontSize]. *)
Theorem optimizeLayout_monotone (measureText : Context -> string -> number)
    (ctx : Context) (text : string) (maxWidth maxHeight1 maxHeight2 : number)
    (minFontSize maxFontSize : Z) :
  minFontSize <= maxFontSize ->
  leb maxHeight2 maxHeight1 = true ->
  fontSize (chosen measureText ctx text maxWidth maxHeight2
              minFontSize maxFontSize)
    <= fontSize (chosen measureText ctx text maxWidth maxHeight1
                   minFontSize maxFontSize) /\
  minFontSize
    <= fontSize (chosen measureText ctx text maxWidth maxHeight1
                   minFontSize maxFontSize)
    <= maxFontSize /\
  minFontSize
    <= fontSize (chosen measureText ctx text maxWidth maxHeight2
                   minFontSize maxFontSize)
    <= maxFontSize.
Proof.
  intros Hrange Hle.
  destruct (optimizeLayout_cases measureText ctx text maxWidth maxHeight1
              minFontSize maxFontSize)
    as [(s1 & -> & Hs1 & Hfit1 & Hmax1)|[-> Hnone1]];
  destruct (optimizeLayout_cases measureText ctx text maxWidth maxHeight2
              minFontSize maxFontSize)
    as [(s2 & -> & Hs2 & Hfit2 & Hmax2)|[-> Hnone2]];
  simpl fontSize; try lia.
  - (* both fit: what fits the smaller bound fits the larger *)
    split; [|lia].
    destruct (Z.le_gt_cases s2 s1) as [|Hgt]; [assumption|].
    assert (Hfit : fits measureText text maxWidth maxHeight1 s2 = true).
    { unfold fits in *. eapply leb_trans; eassumption. }
    rewrite Hmax1 in Hfit by lia. discriminate.
  - (* nothing fits the larger bound, something fits the smaller *)
    assert (Hfit : fits measureText text maxWidth maxHeight1 s2 = true).
    { unfold fits in *. eapply leb_trans; eassumption. }
    rewrite Hnone1 in Hfit by lia. discriminate.
Qed.

(** The theorem for [pangram], the default height and a height of 100. *)
Lemma optimizeLayout_monotone_witness :
  (12 <= 100 /\ leb (of_Z 100) boxHeight = true) /\
  fontSize (chosen monospace {| font := 10 |} pangram boxWidth (of_Z 100) 12 100)
    <= fontSize (chosen monospace {| font := 10 |} pangram boxWidth boxHeight
                   12 100) /\
  12 <= fontSize (chosen monospace {| font := 10 |} pangram boxWidth boxHeight
                    12 100) <= 100 /\
  12 <= fontSize (chosen monospace {| font := 10 |} pangram boxWidth (of_Z 100)
                    12 100) <= 100.
Proof.
  assert (H : 12 <= 100 /\ leb (of_Z 100) boxHeight = true).
  { split; [lia | vm_compute; reflexivity]. }
  split; [exact H|].
  destruct H as [H1 H2].
  exact (optimizeLayout_monotone monospace {| font := 10 |} pangram boxWidth
           boxHeight (of_Z 100) 12 100 H1 H2).
Defined.

(** C5, as stated, fails: a single word wider than the box is kept
    whole on its line.  With the default box and sizes the layout of
    [longWord] is chosen at size 100 (it fits the height, nothing is
    clamped) and its only line is wider than the box. *)
Lemma single_word_wider_than_box :
  fontSize (chosen monospace {| font := 10 |} longWord boxWidth boxHeight 12 100)
    = 100 /\
  fits monospace longWord boxWidth boxHeight 100 = true /\
  lines (chosen monospace {| font := 10 |} longWord boxWidth boxHeight 12 100)
    = [longWord] /\
  leb (monospace {| font := 100 |} longWord) boxWidth = false.
Proof. repeat split; vm_compute; reflexivity. Qed.

(** C5, amended.  Every line of the chosen layout is a single word of
    the text or has a measured width, at the chosen font size, below
    [maxWidth]; this holds at [minFontSize] as well. *)
Theorem layout_lines_fit_or_single_word
    (measureText : Context -> string -> number)
    (ctx : Context) (text : string) (maxWidth maxHeight : number)
    (minFontSize maxFontSize : Z) (line : string) :
  In line (lines (chosen measureText ctx text maxWidth maxHeight
                    minFontSize maxFontSize)) ->
  In line (Str.split text) \/
  ltb (measureText
         {| font := fontSize (chosen measureText ctx text maxWidth maxHeight
                                minFontSize maxFontSize) |} line)
      maxWidth = true.
Proof.
  assert (Hwrap : forall size l,
            In l (wrapText measureText {| font := size |} text maxWidth) ->
            line_ok measureText {| font := size |} maxWidth (Str.split text) l).
  { intros size l. unfold wrapText.
    destruct (Str.split text) as [|first rest] eqn:Hsplit; [intros []|].
    apply wrapText_loop_lines.
    - intros w Hw. now right.
    - intros l0 [].
    - left. now left. }
  destruct (optimizeLayout_cases measureText ctx text maxWidth maxHeight
              minFontSize maxFontSize)
    as [(size & -> & _)|[-> _]]; simpl; apply Hwrap.
Qed.

(** The theorem for the line "over the" of [pangram] in the default
    box. *)
Lemma layout_lines_fit_or_single_word_witness :
  In "over the" (lines (chosen monospace {| font := 10 |} pangram
                           boxWidth boxHeight 12 100)) /\
  (In "over the" (Str.split pangram) \/
   ltb (monospace
          {| font := fontSize (chosen monospace {| font := 10 |} pangram
                                 boxWidth boxHeight 12 100) |} "over the")
       boxWidth = true).
Proof.
  assert (H : In "over the" (lines (chosen monospace {| font := 10 |} pangram
                                       boxWidth boxHeight 12 100))).
  { vm_compute. do 5 right. left. reflexivity. }
  split; [exact H|].
  exact (layout_lines_fit_or_single_word monospace {| font := 10 |} pangram
           boxWidth boxHeight 12 100 "over the" H).
Defined.

(* ===================================================================== *)
(** ** The encoder's outcome and the temporary frames *)
(* ===================================================================== *)

Lemma unlink_all (entries d : list string) :
  (forall x, In x d -> In x entries) ->
  fold_left (fun d file => remove string_dec file d) entries d = [].
Proof.
  revert d. induction entries as [|a entries IH]; intros d Hd; simpl.
  - destruct d as [|x d]; [reflexivity|]. destruct (Hd x). now left.
  - apply IH. intros x Hx. apply in_remove in Hx. destruct Hx as [Hx Hne].
    destruct (Hd x Hx) as [->|Hin]; [contradiction | exact Hin].
Qed.

(** On success every frame file is removed and the directory with
    them. *)
Lemma generateTypingVideo_end (totalFrames : Z) (d : TempDir) :
  generateTypingVideo totalFrames EncoderEnd d = (None, Resolved).
Proof.
  unfold generateTypingVideo, onEnd. now rewrite unlink_all.
Qed.

Lemma writeFileSync_In (name : string) (entries : list string) :
  In name (writeFileSync name entries).
Proof.
  unfold writeFileSync. destruct (in_dec string_dec name entries) as [Hin|_].
  - exact Hin.
  - apply in_or_app. right. now left.
Qed.

Lemma writeFileSync_keeps (name x : string) (entries : list string) :
  In x entries -> In x (writeFileSync name entries).
Proof.
  unfold writeFileSync. destruct (in_dec string_dec name entries) as [_|_].
  - auto.
  - intros Hx. apply in_or_app. now left.
Qed.

Lemma writeFrames_keeps (n : nat) (i : Z) (x : string) (entries : list string) :
  In x entries -> In x (writeFrames n i entries).
Proof.
  revert i entries. induction n as [|n IH]; intros i entries Hx; simpl.
  - exact Hx.
  - apply IH. now apply writeFileSync_keeps.
Qed.

(** C9.  When the encoder fails the promise is rejected with the
    encoder's error, but nothing is cleaned up: the directory is left
    in place with the frame files in it (every file that was there or
    was written, the first frame among them).  Only the success path
    removes them. *)
Theorem encoder_error_leaves_frames (totalFrames : Z) (err : string)
    (d : TempDir) :
  0 < totalFrames ->
  exists entries,
    generateTypingVideo totalFrames (EncoderError err) d
      = (Some entries, Rejected err) /\
    entries = writeFrames (Z.to_nat totalFrames) 0 (ensureTempDir d) /\
    In (frameFileName 0) entries.
Proof.
  intros Hpos. eexists. split; [reflexivity|]. split; [reflexivity|].
  destruct (Z.to_nat totalFrames) as [|n] eqn:Hn; [lia|].
  simpl. apply writeFrames_keeps, writeFileSync_In.
Qed.

(** The theorem for three frames and no directory to start with. *)
Lemma encoder_error_leaves_frames_witness :
  0 < 3 /\
  exists entries,
    generateTypingVideo 3 (EncoderError "ffmpeg exited with code 1") None
      = (Some entries, Rejected "ffmpeg exited with code 1") /\
    entries = writeFrames (Z.to_nat 3) 0 (ensureTempDir None) /\
    In (frameFileName 0) entries.
Proof.
  assert (H : 0 < 3) by lia.
  split; [exact H|].
  exact (encoder_error_leaves_frames 3 "ffmpeg exited with code 1" None H).
Defined.

(** The run of three frames whose encoding fails, evaluated. *)
Example encoder_error_three_frames :
  generateTypingVideo 3 (EncoderError "ffmpeg exited with code 1") None
  = (Some ["frame_00000.png"; "frame_00001.png"; "frame_00002.png"],
     Rejected "ffmpeg exited with code 1").
Proof. vm_compute. reflexivity. Qed.

(* ===================================================================== *)
(** * Further properties of the code *)
(* ===================================================================== *)

(** ** More on [split] *)

Lemma split_String (c : ascii) (rest : string) :
  Str.split (String c rest) =
  if Ascii.eqb c Str.space then EmptyString :: Str.split rest
  else match Str.split rest with
       | w :: ws => String c w :: ws
       | [] => [String c EmptyString]
       end.
Proof. reflexivity. Qed.

Lemma split_app_space (a b : string) :
  Str.split (a ++ " " ++ b)%string = Str.split a ++ Str.split b.
Proof.
  induction a as [|c a IH]; [reflexivity|].
  change (String c a ++ " " ++ b)%string with (String c (a ++ " " ++ b)%string).
  rewrite !split_String, IH.
  destruct (Ascii.eqb c Str.space); [reflexivity|].
  pose proof (split_not_nil a) as Hne.
  destruct (Str.split a); [contradiction | reflexivity].
Qed.

Lemma split_no_space (s w : string) : In w (Str.split s) -> no_space w.
Proof.
  revert w. induction s as [|c s IH]; intros w; simpl.
  - intros [<-|[]]. intros [].
  - destruct (Ascii.eqb c Str.space) eqn:Hc.
    + intros [<-|Hin]; [intros [] | now apply IH].
    + pose proof (split_not_nil s) as Hne.
      destruct (Str.split s) as [|w0 ws]; [contradiction|].
      intros [<-|Hin].
      * intros [Heq|Hin].
        -- rewrite Heq, Ascii.eqb_refl in Hc. discriminate.
        -- apply (IH w0); [now left | exact Hin].
      * apply IH. now right.
Qed.

Lemma split_of_no_space (s : string) : no_space s -> Str.split s = [s].
Proof.
  induction s as [|c s IH]; [reflexivity|].
  intros Hns. simpl.
  destruct (Ascii.eqb c Str.space) eqn:Hc.
  - apply Ascii.eqb_eq in Hc. exfalso. apply Hns. now left.
  - rewrite IH; [reflexivity|]. intros Hin. apply Hns. now right.
Qed.

(** ** More on [wrapText] *)

Section WrapFacts.

Variable measureText : Context -> string -> number.

Lemma wrapText_loop_words ctx maxWidth words lines currentLine :
  (forall w, In w words -> no_space w) ->
  flat_map Str.split
    (wrapText_loop measureText ctx maxWidth words lines currentLine)
  = flat_map Str.split lines ++ Str.split currentLine ++ words.
Proof.
  revert lines currentLine.
  induction words as [|word rest IH]; intros lines currentLine Hw;
    cbn [wrapText_loop].
  - rewrite flat_map_app. cbn [flat_map]. now rewrite !app_nil_r.
  - assert (Hrest : forall w, In w rest -> no_space w)
      by (intros w Hin; apply Hw; now right).
    assert (Hword : Str.split word = [word])
      by (apply split_of_no_space, Hw; now left).
    destruct (ltb _ maxWidth).
    + rewrite IH by exact Hrest.
      rewrite split_app_space, Hword, <- app_assoc. reflexivity.
    + rewrite IH by exact Hrest.
      rewrite flat_map_app, Hword. cbn [flat_map].
      rewrite app_nil_r, <- app_assoc. reflexivity.
Qed.

Lemma wrapText_loop_length ctx maxWidth words lines currentLine :
  (List.length lines + 1
     <= List.length
          (wrapText_loop measureText ctx maxWidth words lines currentLine)
     <= List.length lines + 1 + List.length words)%nat.
Proof.
  revert lines currentLine.
  induction words as [|word rest IH]; intros lines currentLine;
    cbn [wrapText_loop List.length].
  - rewrite length_app. simpl. lia.
  - destruct (ltb _ maxWidth).
    + specialize (IH lines (currentLine ++ " " ++ word)%string). lia.
    + specialize (IH (lines ++ [currentLine]) word).
      rewrite length_app in IH. simpl in IH. lia.
Qed.

Lemma chain_replace_last (R : string -> string -> Prop) ls a a' :
  (forall l, R l a -> R l a') ->
  chain R (ls ++ [a]) -> chain R (ls ++ [a']).
Proof.
  intros HR. induction ls as [|x ls IH]; [simpl; auto|].
  destruct ls as [|y ls]; simpl in *.
  - intros [Hxa _]. split; auto.
  - intros [Hxy Hrest]. split; [exact Hxy | exact (IH Hrest)].
Qed.

Lemma chain_add_last (R : string -> string -> Prop) ls a b :
  R a b -> chain R (ls ++ [a]) -> chain R ((ls ++ [a]) ++ [b]).
Proof.
  intros HR. induction ls as [|x ls IH]; simpl; [auto|].
  destruct ls as [|y ls]; simpl in *.
  - intros [Hxa _]. split; auto.
  - intros [Hxy Hrest]. split; [exact Hxy | exact (IH Hrest)].
Qed.

Lemma chain_adjacent (R : string -> string -> Prop) ls l1 l2 :
  chain R ls -> adjacent l1 l2 ls -> R l1 l2.
Proof.
  intros Hc (before & after & ->).
  induction before as [|x before IH]; simpl in Hc.
  - tauto.
  - apply IH. destruct before; simpl in *; tauto.
Qed.

Lemma wrapText_loop_greedy ctx maxWidth words lines currentLine :
  (forall w, In w words -> no_space w) ->
  chain (did_not_fit measureText ctx maxWidth) (lines ++ [currentLine]) ->
  chain (did_not_fit measureText ctx maxWidth)
    (wrapText_loop measureText ctx maxWidth words lines currentLine).
Proof.
  revert lines currentLine.
  induction words as [|word rest IH]; intros lines currentLine Hw Hc;
    cbn [wrapText_loop].
  - exact Hc.
  - assert (Hrest : forall w, In w rest -> no_space w)
      by (intros w Hin; apply Hw; now right).
    assert (Hword : Str.split word = [word])
      by (apply split_of_no_space, Hw; now left).
    destruct (ltb _ maxWidth) eqn:Hfit.
    + apply IH; [exact Hrest|].
      apply (chain_replace_last _ lines currentLine); [|exact Hc].
      intros l. unfold did_not_fit. rewrite split_app_space.
      pose proof (split_not_nil currentLine) as Hne.
      destruct (Str.split currentLine); [contradiction | auto].
    + apply IH; [exact Hrest|].
      apply chain_add_last; [|exact Hc].
      unfold did_not_fit. rewrite Hword. exact Hfit.
Qed.

End WrapFacts.

Lemma is_prefix_join_head (word : string) (rest : list string) :
  Str.is_prefix word (Str.join (word :: rest)).
Proof.
  destruct rest as [|w rest].
  - apply is_prefix_refl.
  - rewrite join_cons_cons. now exists (" " ++ Str.join (w :: rest))%string.
Qed.

Lemma wrapText_loop_all_fit (measureText : Context -> string -> number)
    ctx maxWidth words lines currentLine :
  (forall p, Str.is_prefix p (Str.join (currentLine :: words)) ->
             ltb (measureText ctx p) maxWidth = true) ->
  wrapText_loop measureText ctx maxWidth words lines currentLine
  = lines ++ [Str.join (currentLine :: words)].
Proof.
  revert currentLine.
  induction words as [|word rest IH]; intros currentLine Hfit;
    cbn [wrapText_loop]; [reflexivity|].
  assert (Heq : Str.join ((currentLine ++ " " ++ word)%string :: rest)
                = Str.join (currentLine :: word :: rest))
    by apply (join_glue []).
  rewrite Hfit.
  - rewrite IH, Heq; [reflexivity|]. intros p Hp. apply Hfit. now rewrite <- Heq.
  - rewrite join_cons_cons.
    destruct (is_prefix_join_head word rest) as [r ->].
    exists r. now rewrite !string_app_assoc.
Qed.

Lemma wrapText_loop_none_fit (measureText : Context -> string -> number)
    ctx maxWidth words lines currentLine :
  (forall s, ltb (measureText ctx s) maxWidth = false) ->
  wrapText_loop measureText ctx maxWidth words lines currentLine
  = lines ++ currentLine :: words.
Proof.
  intros Hnone. revert lines currentLine.
  induction words as [|word rest IH]; intros lines currentLine;
    cbn [wrapText_loop]; [reflexivity|].
  now rewrite Hnone, IH, <- app_assoc.
Qed.

(** X1.  A text without a space, be it empty or a word wider than the
    box, comes back as one line, the text itself, whatever the measure
    and the width. *)
Theorem wrapText_single_word (measureText : Context -> string -> number)
    (ctx : Context) (text : string) (maxWidth : number) :
  no_space text ->
  wrapText measureText ctx text maxWidth = [text].
Proof.
  intros Hns. unfold wrapText. now rewrite (split_of_no_space text Hns).
Qed.

(** The theorem for a word wider than the default box. *)
Lemma wrapText_single_word_witness :
  no_space "AB" /\
  wrapText monospace {| font := 1000 |} "AB" boxWidth = ["AB"].
Proof.
  assert (H : no_space "AB").
  { intros [H|[H|[]]]; discriminate. }
  split; [exact H|].
  exact (wrapText_single_word monospace {| font := 1000 |} "AB" boxWidth H).
Defined.

(** X2.  The words of the lines, line after line, are the words of the
    text in their order: no word is dropped, repeated, moved or cut. *)
Theorem wrapText_words (measureText : Context -> string -> number)
    (ctx : Context) (text : string) (maxWidth : number) :
  flat_map Str.split (wrapText measureText ctx text maxWidth)
  = Str.split text.
Proof.
  unfold wrapText.
  pose proof (split_no_space text) as Hns.
  destruct (Str.split text) as [|first rest]; [reflexivity|].
  rewrite wrapText_loop_words.
  - cbn [flat_map app]. rewrite split_of_no_space; [reflexivity|].
    apply Hns. now left.
  - intros w Hw. apply Hns. now right.
Qed.

(** X3.  There is at least one line and at most one line per word. *)
Theorem wrapText_line_count (measureText : Context -> string -> number)
    (ctx : Context) (text : string) (maxWidth : number) :
  (1 <= List.length (wrapText measureText ctx text maxWidth)
     <= List.length (Str.split text))%nat.
Proof.
  unfold wrapText. pose proof (split_not_nil text) as Hne.
  destruct (Str.split text) as [|first rest]; [contradiction|].
  pose proof (wrapText_loop_length measureText ctx maxWidth rest [] first) as H.
  simpl in *. lia.
Qed.

(** X4.  A line is closed only when the next word does not fit: for
    two lines that follow each other, the first one with a space and
    the first word of the second was measured and was not narrower
    than [maxWidth]. *)
Theorem wrapText_greedy (measureText : Context -> string -> number)
    (ctx : Context) (text : string) (maxWidth : number) (l1 l2 : string) :
  adjacent l1 l2 (wrapText measureText ctx text maxWidth) ->
  ltb (measureText ctx (l1 ++ " " ++ hd "" (Str.split l2))%string) maxWidth
  = false.
Proof.
  intros Hadj.
  apply (chain_adjacent (did_not_fit measureText ctx maxWidth)
           (wrapText measureText ctx text maxWidth)); [|exact Hadj].
  unfold wrapText. pose proof (split_no_space text) as Hns.
  destruct (Str.split text) as [|first rest]; [exact I|].
  apply wrapText_loop_greedy; [|exact I].
  intros w Hw. apply Hns. now right.
Qed.

(** The theorem for the first two lines of [pangram] at size 100
    in the default box. *)
Lemma wrapText_greedy_witness :
  adjacent "The" "quick" (wrapText monospace {| font := 100 |} pangram boxWidth) /\
  ltb (monospace {| font := 100 |} ("The" ++ " " ++ hd "" (Str.split "quick"))%string)
      boxWidth = false.
Proof.
  assert (H : adjacent "The" "quick"
                (wrapText monospace {| font := 100 |} pangram boxWidth)).
  { exists [], ["brown"; "fox"; "jumps"; "over the"; "lazy"; "dogs."].
    vm_compute. reflexivity. }
  split; [exact H|].
  exact (wrapText_greedy monospace {| font := 100 |} pangram boxWidth
           "The" "quick" H).
Defined.

(** X5.  When every initial part of the text is measured narrower than
    [maxWidth], the text stays on one line. *)
Theorem wrapText_all_fit (measureText : Context -> string -> number)
    (ctx : Context) (text : string) (maxWidth : number) :
  (forall p, Str.is_prefix p text -> ltb (measureText ctx p) maxWidth = true) ->
  wrapText measureText ctx text maxWidth = [text].
Proof.
  intros Hfit. unfold wrapText. pose proof (join_split text) as Hjs.
  pose proof (split_not_nil text) as Hne.
  destruct (Str.split text) as [|first rest]; [contradiction|].
  rewrite wrapText_loop_all_fit; rewrite Hjs; [reflexivity | exact Hfit].
Qed.

(** The theorem for "AB CD" at size 10 in the default box. *)
Lemma wrapText_all_fit_witness :
  (forall p, Str.is_prefix p "AB CD" ->
             ltb (monospace {| font := 10 |} p) boxWidth = true) /\
  wrapText monospace {| font := 10 |} "AB CD" boxWidth = ["AB CD"].
Proof.
  assert (H : forall p, Str.is_prefix p "AB CD" ->
                        ltb (monospace {| font := 10 |} p) boxWidth = true).
  { intros p [r Hr].
    do 5 (destruct p as [|? p]; [vm_compute; reflexivity|];
          simpl in Hr; injection Hr as <- Hr).
    destruct p; [vm_compute; reflexivity | discriminate]. }
  split; [exact H|].
  exact (wrapText_all_fit monospace {| font := 10 |} "AB CD" boxWidth H).
Defined.

(** X6.  When nothing is measured narrower than [maxWidth] (a width
    that is NaN, for one), every word of the text is a line of its
    own. *)
Theorem wrapText_none_fit (measureText : Context -> string -> number)
    (ctx : Context) (text : string) (maxWidth : number) :
  (forall s, ltb (measureText ctx s) maxWidth = false) ->
  wrapText measureText ctx text maxWidth = Str.split text.
Proof.
  intros Hnone. unfold wrapText.
  destruct (Str.split text) as [|first rest]; [reflexivity|].
  now rewrite wrapText_loop_none_fit.
Qed.

Lemma ltb_nan (x : number) : ltb x S754_nan = false.
Proof. now destruct x as [?|?| |? ? ?]. Qed.

Lemma leb_nan (x : number) : leb x S754_nan = false.
Proof. now destruct x as [?|?| |? ? ?]. Qed.

(** The theorem for [pangram] and a width that is NaN. *)
Lemma wrapText_none_fit_witness :
  (forall s, ltb (monospace {| font := 10 |} s) S754_nan = false) /\
  wrapText monospace {| font := 10 |} pangram S754_nan = Str.split pangram.
Proof.
  assert (H : forall s, ltb (monospace {| font := 10 |} s) S754_nan = false).
  { intros s. destruct (monospace {| font := 10 |} s) as [?|?| |? ? ?];
      reflexivity. }
  split; [exact H|].
  exact (wrapText_none_fit monospace {| font := 10 |} pangram S754_nan H).
Defined.

(** ** More on [optimizeLayout] *)

Lemma layoutAt_join (measureText : Context -> string -> number)
    (text : string) (maxWidth : number) (size : Z) :
  Str.join (lines (layoutAt measureText text maxWidth size)) = text.
Proof.
  unfold layoutAt, wrapText. cbn [lines].
  pose proof (join_split text) as Hjs.
  destruct (Str.split text) as [|first rest]; [exact Hjs|].
  now rewrite wrapText_loop_join.
Qed.

(** X7.  The layout chosen keeps the whole text: its lines joined with
    single spaces are the text, at whatever size the search ends. *)
Theorem optimizeLayout_keeps_text (measureText : Context -> string -> number)
    (ctx : Context) (text : string) (maxWidth maxHeight : number)
    (minFontSize maxFontSize : Z) :
  Str.join (lines (chosen measureText ctx text maxWidth maxHeight
                     minFontSize maxFontSize))
  = text.
Proof.
  destruct (optimizeLayout_cases measureText ctx text maxWidth maxHeight
              minFontSize maxFontSize)
    as [(size & -> & _)|[-> _]]; apply layoutAt_join.
Qed.



(** X9.  A height bound that is NaN is never met: the layout is the
    one at [minFontSize] and the context is left with that font. *)
Theorem optimizeLayout_nan_height (measureText : Context -> string -> number)
    (ctx : Context) (text : string) (maxWidth : number)
    (minFontSize maxFontSize : Z) :
  optimizeLayout measureText ctx text maxWidth S754_nan
    minFontSize maxFontSize
  = ({| font := minFontSize |}, layoutAt measureText text maxWidth minFontSize).
Proof.
  unfold optimizeLayout.
  pose proof (optimizeLayout_loop_spec measureText text maxWidth S754_nan
                minFontSize maxFontSize) as Hloop.
  destruct (optimizeLayout_loop measureText text maxWidth S754_nan
              minFontSize maxFontSize) as [l|]; [|reflexivity].
  destruct Hloop as (size & _ & _ & Hfit & _).
  unfold fits in Hfit. rewrite leb_nan in Hfit. discriminate.
Qed.

(** ** More on the frames *)

Lemma string_app_nil_r (s : string) : (s ++ "")%string = s.
Proof. induction s as [|c s IH]; simpl; [reflexivity | now rewrite IH]. Qed.

Lemma string_length_app (a b : string) :
  String.length (a ++ b) = (String.length a + String.length b)%nat.
Proof. induction a as [|c a IH]; simpl; [reflexivity | now rewrite IH]. Qed.

Lemma concat_cons (x : string) (xs : list string) :
  String.concat "" (x :: xs) = (x ++ String.concat "" xs)%string.
Proof.
  destruct xs as [|y xs]; simpl; [now rewrite string_app_nil_r | reflexivity].
Qed.

Lemma concat_length (ls : list string) :
  Str.len (String.concat "" ls) = charCount ls.
Proof.
  induction ls as [|l ls IH]; [reflexivity|].
  rewrite concat_cons. unfold Str.len in *. rewrite string_length_app.
  cbn [charCount fold_right]. fold (charCount ls). unfold Str.len. lia.
Qed.

Lemma take_app_short (n : nat) (a b : string) :
  (n <= String.length a)%nat -> Str.take n (a ++ b) = Str.take n a.
Proof.
  revert a. induction n as [|n IH]; intros a Hn.
  - now destruct a, b.
  - destruct a as [|c a]; simpl in *; [lia|]. rewrite IH by lia. reflexivity.
Qed.

Lemma take_app_long (n : nat) (a b : string) :
  (String.length a <= n)%nat ->
  Str.take n (a ++ b) = (a ++ Str.take (n - String.length a) b)%string.
Proof.
  revert n. induction a as [|c a IH]; intros n Hn; simpl in *.
  - now rewrite Nat.sub_0_r.
  - destruct n as [|n]; [lia|]. simpl. rewrite IH by lia. reflexivity.
Qed.

Lemma take_beyond (n : nat) (s : string) :
  (String.length s <= n)%nat -> Str.take n s = s.
Proof.
  revert n. induction s as [|c s IH]; intros n Hn.
  - now destruct n.
  - destruct n as [|n]; simpl in *; [lia|]. rewrite IH by lia. reflexivity.
Qed.

Lemma take_prefix_take (n m : nat) (s : string) :
  (n <= m)%nat -> Str.is_prefix (Str.take n s) (Str.take m s).
Proof.
  revert m s. induction n as [|n IH]; intros m s Hnm.
  - exists (Str.take m s). now destruct s.
  - destruct m as [|m]; [lia|]. destruct s as [|c s].
    + exists EmptyString. reflexivity.
    + destruct (IH m s ltac:(lia)) as [r Hr]. exists r. simpl. now rewrite Hr.
Qed.

(** With [c] characters counted and the count [v] not yet exceeded,
    the walk shows the next [v - c] characters of the lines. *)
Lemma typeLines_text (ls : list string) (v c : Z) :
  c <= v ->
  String.concat "" (typeLines ls (Int v) c [])
  = Str.take (Z.to_nat (v - c)) (String.concat "" ls).
Proof.
  revert c. induction ls as [|line rest IH]; intros c Hc.
  - simpl. now destruct (Z.to_nat (v - c)).
  - rewrite typeLines_cons. cbn [le_integral]. rewrite (concat_cons line rest).
    pose proof (len_nonneg line) as Hlen.
    destruct (Z.leb_spec (c + Str.len line) v) as [Hfit|Hover].
    + rewrite concat_cons, IH by lia.
      rewrite take_app_long by (unfold Str.len in *; lia).
      do 2 f_equal. unfold Str.len in *. lia.
    + cbn [sub_integral]. rewrite slice0_Int by lia.
      cbn [String.concat]. rewrite take_app_short; [reflexivity|].
      unfold Str.len in *. lia.
Qed.

Lemma charCount_firstn (k : nat) (ls : list string) :
  charCount (firstn k ls) <= charCount ls.
Proof.
  revert k. induction ls as [|l ls IH]; intros k.
  - now destruct k.
  - destruct k as [|k]; simpl.
    + pose proof (charCount_nonneg ls). pose proof (len_nonneg l).
      fold (charCount ls). lia.
    + specialize (IH k). fold (charCount ls). fold (charCount (firstn k ls)).
      lia.
Qed.

Lemma charCount_firstn_next (k : nat) (ls : list string) (line : string) :
  nth_error ls k = Some line ->
  charCount (firstn k ls) + Str.len line <= charCount ls.
Proof.
  revert k. induction ls as [|l ls IH]; intros k Hk.
  - destruct k; discriminate.
  - destruct k as [|k]; simpl in *.
    + injection Hk as ->. pose proof (charCount_nonneg ls).
      fold (charCount ls). lia.
    + specialize (IH k Hk). fold (charCount ls).
      fold (charCount (firstn k ls)). lia.
Qed.

(** X10.  In the typing regime the characters a frame shows, read line
    after line, are the first [v] characters of the lines of the
    layout ([v] the count of visible characters), all of them when [v]
    is larger; their number is the smaller of [v] and the number of
    characters of the lines. *)
Theorem typing_shows_first_chars (i totalFrames bufferFrames : Z)
    (text : string) (lines : list string) :
  bufferFrames <= i < totalFrames - bufferFrames ->
  typingFrames totalFrames bufferFrames <= 2 ^ 53 ->
  Str.len text <= 2 ^ 53 ->
  exists v : Z,
    visibleChars i totalFrames bufferFrames text = Int v /\
    String.concat "" (displayLines i totalFrames bufferFrames text lines)
      = Str.take (Z.to_nat v) (String.concat "" lines) /\
    charCount (displayLines i totalFrames bufferFrames text lines)
      = Z.min v (charCount lines).
Proof.
  intros Hi Ht HL.
  destruct (visibleChars_Int i totalFrames bufferFrames text Hi Ht HL)
    as (v & Hv & Hv0 & _).
  assert (Htext : String.concat ""
                    (displayLines i totalFrames bufferFrames text lines)
                  = Str.take (Z.to_nat v) (String.concat "" lines)).
  { unfold displayLines.
    rewrite (proj2 (regime_Typing i totalFrames bufferFrames) Hi), Hv.
    rewrite typeLines_text by lia. now rewrite Z.sub_0_r. }
  exists v. split; [exact Hv|]. split; [exact Htext|].
  rewrite <- (concat_length (displayLines _ _ _ _ _)), Htext.
  rewrite <- (concat_length lines).
  pose proof (len_nonneg (String.concat "" lines)) as Hn.
  unfold Str.len in *.
  destruct (Z.le_gt_cases v (Z.of_nat (String.length (String.concat "" lines))))
    as [Hle|Hgt].
  - rewrite take_length by lia. lia.
  - rewrite take_beyond by lia. lia.
Qed.

(** The theorem at frame 4 of the ten frames of "AB CD". *)
Lemma typing_shows_first_chars_witness :
  (0 <= 4 < 10 - 0 /\ typingFrames 10 0 <= 2 ^ 53 /\
   Str.len "AB CD" <= 2 ^ 53) /\
  exists v : Z,
    visibleChars 4 10 0 "AB CD" = Int v /\
    String.concat "" (displayLines 4 10 0 "AB CD" ["AB CD"])
      = Str.take (Z.to_nat v) (String.concat "" ["AB CD"]) /\
    charCount (displayLines 4 10 0 "AB CD" ["AB CD"])
      = Z.min v (charCount ["AB CD"]).
Proof.
  assert (H : 0 <= 4 < 10 - 0 /\ typingFrames 10 0 <= 2 ^ 53 /\
              Str.len "AB CD" <= 2 ^ 53).
  { vm_compute. repeat split; discriminate. }
  split; [exact H|].
  destruct H as (H1 & H2 & H3).
  exact (typing_shows_first_chars 4 10 0 "AB CD" ["AB CD"] H1 H2 H3).
Defined.

(** X11.  Typing never takes a character back: what a frame of the
    typing regime shows, read line after line, is an initial part of
    what the next frame shows. *)
Theorem typing_never_deletes (i totalFrames bufferFrames : Z)
    (text : string) (lines : list string) :
  bufferFrames <= i ->
  i + 1 < totalFrames - bufferFrames ->
  typingFrames totalFrames bufferFrames <= 2 ^ 53 ->
  Str.len text <= 2 ^ 53 ->
  Str.is_prefix
    (String.concat "" (displayLines i totalFrames bufferFrames text lines))
    (String.concat ""
       (displayLines (i + 1) totalFrames bufferFrames text lines)).
Proof.
  intros Hi Hi' Ht HL.
  assert (Hr : bufferFrames <= i < totalFrames - bufferFrames) by lia.
  assert (Hr' : bufferFrames <= i + 1 < totalFrames - bufferFrames) by lia.
  destruct (visibleChars_Int i totalFrames bufferFrames text Hr Ht HL)
    as (v & Hv & Hv0 & _).
  destruct (visibleChars_Int (i + 1) totalFrames bufferFrames text Hr' Ht HL)
    as (v' & Hv' & Hv0' & _).
  assert (Hvv : v <= v').
  { pose proof (len_nonneg text) as HL0.
    pose proof Hv as Hv1. pose proof Hv' as Hv1'.
    unfold visibleChars, progress, typingFrames in Hv1, Hv1', Ht.
    apply (visible_monotone (Str.len text) (i - bufferFrames)
             (i + 1 - bufferFrames) (totalFrames - 2 * bufferFrames));
      try assumption; lia. }
  unfold displayLines.
  rewrite (proj2 (regime_Typing i totalFrames bufferFrames) Hr), Hv.
  rewrite (proj2 (regime_Typing (i + 1) totalFrames bufferFrames) Hr'), Hv'.
  rewrite !typeLines_text by lia. rewrite !Z.sub_0_r.
  apply take_prefix_take. lia.
Qed.

(** The theorem at frames 26 and 27 of the 90 frames of
    [pangram] on one line. *)
Lemma typing_never_deletes_witness :
  (0 <= 26 /\ 26 + 1 < 90 - 0 /\ typingFrames 90 0 <= 2 ^ 53 /\
   Str.len pangram <= 2 ^ 53) /\
  Str.is_prefix
    (String.concat "" (displayLines 26 90 0 pangram [pangram]))
    (String.concat "" (displayLines (26 + 1) 90 0 pangram [pangram])).
Proof.
  assert (H : 0 <= 26 /\ 26 + 1 < 90 - 0 /\ typingFrames 90 0 <= 2 ^ 53 /\
              Str.len pangram <= 2 ^ 53).
  { vm_compute. repeat split; discriminate. }
  split; [exact H|].
  destruct H as (H1 & H2 & H3 & H4).
  exact (typing_never_deletes 26 90 0 pangram [pangram] H1 H2 H3 H4).
Defined.





Lemma join_length (ls : list string) :
  ls <> [] ->
  Str.len (Str.join ls) = charCount ls + Z.of_nat (List.length ls) - 1.
Proof.
  induction ls as [|l ls IH]; [congruence|]. intros _.
  destruct ls as [|l' ls].
  - unfold Str.join. simpl. lia.
  - rewrite join_cons_cons. unfold Str.len in *.
    rewrite !string_length_app.
    specialize (IH ltac:(discriminate)).
    cbn [charCount fold_right List.length] in *. unfold Str.len in *.
    simpl String.length. lia.
Qed.

(** X14.  The lines hold every character of the text but the spaces
    at which it was broken, one for each line after the first. *)
Theorem wrapText_charCount (measureText : Context -> string -> number)
    (ctx : Context) (text : string) (maxWidth : number) :
  charCount (wrapText measureText ctx text maxWidth)
  + Z.of_nat (List.length (wrapText measureText ctx text maxWidth)) - 1
  = Str.len text.
Proof.
  rewrite <- join_length by apply wrapText_not_nil.
  f_equal. destruct ctx as [size].
  exact (layoutAt_join measureText text maxWidth size).
Qed.

(** X15.  In the typing regime a frame whose count of visible
    characters reaches the number of characters of the lines shows
    every line whole: a wrapped text is complete before the count
    reaches the length of the text. *)
Theorem typing_complete (i totalFrames bufferFrames v : Z) (text : string)
    (lines : list string) :
  regime i totalFrames bufferFrames = Typing ->
  visibleChars i totalFrames bufferFrames text = Int v ->
  charCount lines <= v ->
  displayLines i totalFrames bufferFrames text lines = lines.
Proof.
  intros Hreg Hv Hall. unfold displayLines. rewrite Hreg, Hv.
  pose proof (charCount_nonneg lines) as H0.
  destruct (typeLines_walk lines v 0 ltac:(lia)) as (k & Hk & Hsum & Hk_all & Hcut).
  destruct (Nat.eq_dec k (List.length lines)) as [Heq|Hne]; [auto|].
  destruct (nth_error lines k) as [line|] eqn:Hline.
  - destruct (Hcut line eq_refl) as [Hlt _].
    pose proof (charCount_firstn_next k lines line Hline). lia.
  - apply nth_error_None in Hline. lia.
Qed.

(** The theorem at the last typing frame of "AB CD" on two
    lines: 4 characters are visible and both lines are shown whole. *)
Lemma typing_complete_witness :
  (regime 9 10 0 = Typing /\ visibleChars 9 10 0 "AB CD" = Int 4 /\
   charCount ["AB"; "CD"] <= 4) /\
  displayLines 9 10 0 "AB CD" ["AB"; "CD"] = ["AB"; "CD"].
Proof.
  assert (H : regime 9 10 0 = Typing /\ visibleChars 9 10 0 "AB CD" = Int 4 /\
              charCount ["AB"; "CD"] <= 4).
  { vm_compute. repeat split; discriminate. }
  split; [exact H|].
  destruct H as (H1 & H2 & H3).
  exact (typing_complete 9 10 0 4 "AB CD" ["AB"; "CD"] H1 H2 H3).
Defined.

(** ** The drawing of a frame *)

Lemma textOps_drawLines (measureText : Context -> string -> number)
    (s : Render.Settings) (layout : LayoutSpec) (startY : number)
    (index : Z) (shown : list string) :
  Render.textOps (Render.drawLines measureText s layout startY index shown)
  = map (fun p =>
           Render.FillText (Render.Named (Render.textColor s))
             (fontSize layout) (snd p)
             (mul (Render.width s) (Render.left (Render.margins s)))
             (number_add startY (mul (of_Z (fst p)) (lineHeight layout))))
        (combine (indicesFrom (List.length shown) index) shown).
Proof.
  revert index. induction shown as [|line rest IH]; intros index.
  - reflexivity.
  - cbn [Render.drawLines List.length indicesFrom combine map fst snd].
    rewrite <- IH. unfold Render.textOps.
    destruct (Render.highlightText s); reflexivity.
Qed.

Lemma drawnTexts_drawLines (measureText : Context -> string -> number)
    (s : Render.Settings) (layout : LayoutSpec) (startY : number)
    (index : Z) (shown : list string) :
  Render.drawnTexts (Render.drawLines measureText s layout startY index shown)
  = shown.
Proof.
  revert index. induction shown as [|line rest IH]; intros index.
  - reflexivity.
  - cbn [Render.drawLines]. unfold Render.drawnTexts in *.
    destruct (Render.highlightText s); simpl; now rewrite IH.
Qed.

Lemma drawnTexts_renderFrame (measureText : Context -> string -> number)
    (s : Render.Settings) (layout : LayoutSpec)
    (i totalFrames bufferFrames : Z) :
  Render.drawnTexts
    (Render.renderFrame measureText s layout i totalFrames bufferFrames)
  = displayLines i totalFrames bufferFrames (Render.text s) (lines layout).
Proof.
  unfold Render.renderFrame.
  change (Render.drawnTexts (?b :: ?ops))
    with ((match b with
           | Render.FillText _ _ line _ _ => [line]
           | _ => []
           end) ++ Render.drawnTexts ops).
  rewrite drawnTexts_drawLines.
  unfold Render.background. now destruct (Render.backgroundImage s).
Qed.

(** X16.  The [fillText] calls of a frame are one for each shown line,
    in order, all in the text colour at the layout's font size and at
    the left margin, the line of index [k] at
    [startY + k * lineHeight], whether or not highlights are drawn
    between them. *)
Theorem renderFrame_text_calls (measureText : Context -> string -> number)
    (s : Render.Settings) (layout : LayoutSpec)
    (i totalFrames bufferFrames : Z) :
  let shown :=
    displayLines i totalFrames bufferFrames (Render.text s) (lines layout) in
  Render.textOps
    (Render.renderFrame measureText s layout i totalFrames bufferFrames)
  = map (fun p =>
           Render.FillText (Render.Named (Render.textColor s))
             (fontSize layout) (snd p)
             (mul (Render.width s) (Render.left (Render.margins s)))
             (number_add (Render.startY s layout shown)
                (mul (of_Z (fst p)) (lineHeight layout))))
        (combine (indicesFrom (List.length shown) 0) shown).
Proof.
  intros shown. unfold Render.renderFrame. fold shown.
  rewrite <- (textOps_drawLines measureText).
  unfold Render.textOps at 1. cbn [filter].
  unfold Render.background.
  destruct (Render.backgroundImage s); reflexivity.
Qed.


(** X18.  From frame [totalFrames - bufferFrames] on, the lines written
    on the canvas, joined with single spaces, are the text of the
    settings: the layout search, the wrapping and the drawing loop
    together lose no word. *)
Theorem trailing_frame_draws_text
    (measureText : Context -> string -> number) (ctx : Context)
    (s : Render.Settings) (i totalFrames bufferFrames : Z) :
  totalFrames - bufferFrames <= i ->
  Str.join
    (Render.drawnTexts
       (Render.renderFrame measureText s (Render.layoutOf measureText ctx s)
          i totalFrames bufferFrames))
  = Render.text s.
Proof.
  intros Hi. rewrite drawnTexts_renderFrame.
  unfold displayLines, regime.
  destruct (Z.ltb_spec i (totalFrames - bufferFrames)); [lia|].
  rewrite andb_false_r.
  destruct (Z.leb_spec (totalFrames - bufferFrames) i); [|lia].
  unfold Render.layoutOf.
  destruct (optimizeLayout_cases measureText ctx (Render.text s)
              (Render.maxWidth s) (Render.maxHeight s) 12 100)
    as [(size & -> & _)|[-> _]]; apply layoutAt_join.
Qed.


(** The theorem at the last of 10 frames with a buffer
    of 2, for the settings of the script. *)
Lemma trailing_frame_draws_text_witness :
  10 - 2 <= 9 /\
  Str.join
    (Render.drawnTexts
       (Render.renderFrame monospace SETTINGS
          (Render.layoutOf monospace {| font := 10 |} SETTINGS) 9 10 2))
  = Render.text SETTINGS.
Proof.
  assert (H : 10 - 2 <= 9) by lia.
  split; [exact H|].
  exact (trailing_frame_draws_text monospace {| font := 10 |} SETTINGS
           9 10 2 H).
Defined.

(** The text box of the script's settings is the one of the worked
    examples, 864 by 1536. *)
Example SETTINGS_box :
  Render.maxWidth SETTINGS = boxWidth /\
  Render.maxHeight SETTINGS = boxHeight.
Proof. vm_compute. split; reflexivity. Qed.

(** ** The names of the frame files *)

Lemma string_app_inv_tail (a b c : string) :
  (a ++ c)%string = (b ++ c)%string -> a = b.
Proof.
  revert b. induction a as [|x a IH]; intros [|y b] H.
  - reflexivity.
  - apply (f_equal String.length) in H.
    change ("" ++ c)%string with c in H.
    rewrite string_length_app in H. simpl in H. lia.
  - apply (f_equal String.length) in H.
    change ("" ++ c)%string with c in H.
    rewrite string_length_app in H. simpl in H. lia.
  - simpl in H. injection H as -> H. f_equal. now apply IH.
Qed.

Lemma to_uint_string (n : N) :
  NilZero.string_of_uint (N.to_uint n) = NilEmpty.string_of_uint (N.to_uint n).
Proof.
  destruct (N.to_uint n) eqn:Hu; try reflexivity.
  pose proof (DecimalN.Unsigned.of_to n) as Hn. rewrite Hu in Hn.
  simpl in Hn. subst n. discriminate.
Qed.

Lemma leading_zeros (k : nat) (s : string) :
  option_map N.of_uint
    (NilEmpty.uint_of_string (String.concat "" (repeat "0" k) ++ s))
  = option_map N.of_uint (NilEmpty.uint_of_string s).
Proof.
  induction k as [|k IH]; [reflexivity|].
  cbn [repeat]. rewrite concat_cons.
  change (("0" ++ ?r) ++ s)%string with (String "0" (r ++ s)).
  cbn [NilEmpty.uint_of_string]. rewrite <- IH.
  destruct (NilEmpty.uint_of_string _); reflexivity.
Qed.

(** The number of a frame is read back from the padded digits. *)
Lemma padStart5_decode (n : N) :
  option_map N.of_uint
    (NilEmpty.uint_of_string
       (padStart5 (NilZero.string_of_uint (N.to_uint n))))
  = Some n.
Proof.
  unfold padStart5. rewrite leading_zeros, to_uint_string, NilEmpty.usu.
  simpl. now rewrite DecimalN.Unsigned.of_to.
Qed.

Lemma frameFileName_inj (i j : Z) :
  0 <= i -> 0 <= j -> frameFileName i = frameFileName j -> i = j.
Proof.
  intros Hi Hj H. unfold frameFileName in H.
  change ("frame_" ++ ?x)%string
    with (String "f" (String "r" (String "a" (String "m" (String "e"
            (String "_" x)))))) in H.
  injection H as H. apply string_app_inv_tail in H.
  apply (f_equal (fun s => option_map N.of_uint (NilEmpty.uint_of_string s)))
    in H.
  rewrite !padStart5_decode in H. injection H as H. lia.
Qed.

Lemma indicesFrom_In (n : nat) (i k : Z) :
  In k (indicesFrom n i) <-> i <= k < i + Z.of_nat n.
Proof.
  revert i. induction n as [|n IH]; intros i.
  - simpl. lia.
  - cbn [indicesFrom In]. rewrite IH. lia.
Qed.

Lemma indicesFrom_length (n : nat) (i : Z) :
  List.length (indicesFrom n i) = n.
Proof.
  revert i. induction n as [|n IH]; intros i; simpl; [reflexivity|].
  now rewrite IH.
Qed.

Lemma indicesFrom_NoDup (n : nat) (i : Z) : NoDup (indicesFrom n i).
Proof.
  revert i. induction n as [|n IH]; intros i; cbn [indicesFrom].
  - constructor.
  - constructor; [|apply IH]. rewrite indicesFrom_In. lia.
Qed.

Lemma frame_names_NoDup (n : nat) (i : Z) :
  0 <= i -> NoDup (map frameFileName (indicesFrom n i)).
Proof.
  intros Hi. revert i Hi. induction n as [|n IH]; intros i Hi; cbn [indicesFrom map].
  - constructor.
  - constructor; [|apply IH; lia].
    rewrite in_map_iff. intros (k & Hk & Hin).
    apply indicesFrom_In in Hin.
    apply frameFileName_inj in Hk; lia.
Qed.

Lemma writeFrames_fresh (n : nat) (i : Z) (entries : list string) :
  0 <= i ->
  (forall k, i <= k < i + Z.of_nat n -> ~ In (frameFileName k) entries) ->
  writeFrames n i entries = entries ++ map frameFileName (indicesFrom n i).
Proof.
  revert i entries. induction n as [|n IH]; intros i entries Hi Hnew.
  - simpl. now rewrite app_nil_r.
  - cbn [writeFrames indicesFrom map]. unfold writeFileSync.
    destruct (in_dec string_dec (frameFileName i) entries) as [Hin|_].
    { exfalso. apply (Hnew i); [lia | exact Hin]. }
    rewrite IH; [now rewrite <- app_assoc | lia |].
    intros k Hk Hin. apply in_app_or in Hin. destruct Hin as [Hin|[Heq|[]]].
    + apply (Hnew k); [lia | exact Hin].
    + apply frameFileName_inj in Heq; lia.
Qed.

Lemma writeFrames_In (n : nat) (i k : Z) (entries : list string) :
  i <= k < i + Z.of_nat n -> In (frameFileName k) (writeFrames n i entries).
Proof.
  revert i entries. induction n as [|n IH]; intros i entries Hk.
  - lia.
  - cbn [writeFrames]. destruct (Z.eq_dec k i) as [->|Hne].
    + apply writeFrames_keeps, writeFileSync_In.
    + apply IH. lia.
Qed.

Lemma writeFrames_present (n : nat) (i : Z) (entries : list string) :
  (forall k, i <= k < i + Z.of_nat n -> In (frameFileName k) entries) ->
  writeFrames n i entries = entries.
Proof.
  revert i entries. induction n as [|n IH]; intros i entries Hall.
  - reflexivity.
  - cbn [writeFrames]. unfold writeFileSync.
    destruct (in_dec string_dec (frameFileName i) entries) as [_|Hout].
    + apply IH. intros k Hk. apply Hall. lia.
    + destruct Hout. apply Hall. lia.
Qed.

(** X19.  Two frames never share a file: frames of different
    non-negative indices have different file names, also past index
    99999 where the padding to five digits adds nothing. *)
Theorem frameFileName_distinct (i j : Z) :
  0 <= i -> 0 <= j -> i <> j -> frameFileName i <> frameFileName j.
Proof.
  intros Hi Hj Hne Heq. apply Hne. now apply frameFileName_inj.
Qed.

(** The theorem at frames 7 and 100000. *)
Lemma frameFileName_distinct_witness :
  (0 <= 7 /\ 0 <= 100000 /\ 7 <> 100000) /\
  frameFileName 7 <> frameFileName 100000.
Proof.
  assert (H : 0 <= 7 /\ 0 <= 100000 /\ 7 <> 100000) by lia.
  split; [exact H|].
  destruct H as (H1 & H2 & H3).
  exact (frameFileName_distinct 7 100000 H1 H2 H3).
Defined.

(** X20.  A run into a directory that holds none of its frame names
    adds one file for each frame, in the order of the frames and with
    no name twice, after what the directory held; this is what the
    encoder is started on, and what is left when it fails. *)
Theorem run_writes_each_frame_once (totalFrames : Z) (err : string)
    (d : TempDir) :
  (forall k, 0 <= k < totalFrames ->
             ~ In (frameFileName k) (ensureTempDir d)) ->
  let names := map frameFileName (indicesFrom (Z.to_nat totalFrames) 0) in
  generateTypingVideo totalFrames (EncoderError err) d
  = (Some (ensureTempDir d ++ names), Rejected err) /\
  NoDup names /\
  List.length names = Z.to_nat totalFrames.
Proof.
  intros Hnew names. split; [|split].
  - unfold generateTypingVideo, onError. rewrite writeFrames_fresh.
    + reflexivity.
    + lia.
    + intros k Hk. apply Hnew. lia.
  - apply frame_names_NoDup. lia.
  - unfold names. now rewrite length_map, indicesFrom_length.
Qed.

(** The theorem for three frames and no directory to
    start with. *)
Lemma run_writes_each_frame_once_witness :
  (forall k, 0 <= k < 3 -> ~ In (frameFileName k) (ensureTempDir None)) /\
  let names := map frameFileName (indicesFrom (Z.to_nat 3) 0) in
  generateTypingVideo 3 (EncoderError "ffmpeg exited with code 1") None
  = (Some (ensureTempDir None ++ names), Rejected "ffmpeg exited with code 1")
  /\ NoDup names /\ List.length names = Z.to_nat 3.
Proof.
  assert (H : forall k, 0 <= k < 3 ->
                        ~ In (frameFileName k) (ensureTempDir None)).
  { intros k _ []. }
  split; [exact H|].
  exact (run_writes_each_frame_once 3 "ffmpeg exited with code 1" None H).
Defined.

(** X21.  Frames left by a run whose encoding failed are still in the
    directory when a later, shorter run starts its encoder: the later
    run overwrites the files of its own frames and leaves the others,
    so the directory is the one the failed run left. *)
Theorem stale_frames_survive (first later : Z) (err err' : string)
    (d : TempDir) :
  later <= first ->
  let kept := fst (generateTypingVideo first (EncoderError err) d) in
  generateTypingVideo later (EncoderError err') kept
  = (kept, Rejected err').
Proof.
  intros Hle kept. unfold kept, generateTypingVideo, onError.
  cbn [fst ensureTempDir]. rewrite writeFrames_present; [reflexivity|].
  intros k Hk. apply writeFrames_In. lia.
Qed.

(** The theorem for a failed run of 3 frames followed by a
    run of 2. *)
Lemma stale_frames_survive_witness :
  2 <= 3 /\
  let kept := fst (generateTypingVideo 3 (EncoderError "first") None) in
  generateTypingVideo 2 (EncoderError "second") kept
  = (kept, Rejected "second").
Proof.
  assert (H : 2 <= 3) by lia.
  split; [exact H|].
  exact (stale_frames_survive 3 2 "first" "second" None H).
Defined.

(** ** The count of visible characters stays below the length *)








